(** * gonut: a shallow embedding of the NUT demuxer

    The development follows the Go sources: [gonut.go] (the demuxer, the
    variable-length integer readers, the packet decoders), [side_data.go]
    (the side-data decoder) and the constants file (start codes, frame
    flags).  Go's [uint64] and [int64] are modelled by [Z] with the
    wrap-around written out, byte slices by [list byte], the [io.Reader]
    interface by a type class, and the mutable receivers ([*Demuxer],
    [*rawPacket]) by explicit state passing. *)

From Stdlib Require Import ZArith Lia List Bool.
From Stdlib Require Import Strings.Byte Strings.String.
From stdpp Require Import base list.
Import ListNotations.

Local Open Scope Z_scope.

(** ** Machine integers *)

Definition wrap64 (z : Z) : Z := z mod 2 ^ 64.

(** [int64(x)] and the result of an [int64] operation: two's complement. *)
Definition toInt64 (z : Z) : Z := (z + 2 ^ 63) mod 2 ^ 64 - 2 ^ 63.

Definition byteZ (b : byte) : Z := Z.of_N (Byte.to_N b).

(** ** Errors and abnormal terminations *)

Inductive error : Type :=
| EOF                              (* io.EOF *)
| ErrUnexpectedEOF                 (* io.ErrUnexpectedEOF *)
| ErrVarintOverflow                (* "varint overflows uint64" *)
| ErrFileID (cause : error)        (* "Error reading file id: %s" *)
| ErrSecondMainHeader              (* "Second Main header detected" *)
| ErrUnknownStartCode (code : list byte)
| ErrNoProgress.                   (* a reader that returns neither data nor error *)

Inductive panic : Type :=
| NilDereference                   (* field access through a nil pointer *)
| IndexOutOfRange (i : Z).         (* slice index outside [0, len) *)

(** A Go call either returns, panics, or is still running when the fuel of
    the model is used up. *)
Inductive outcome (A : Type) : Type :=
| Returns (a : A)
| Panics (p : panic)
| OutOfFuel.
Arguments Returns {A} a.
Arguments Panics {A} p.
Arguments OutOfFuel {A}.

(** ** [io.Reader] and the readers of the standard library the code uses *)

(** [Read n r] is Go's [r.Read(p)] with [len(p) = n]: the bytes stored in
    [p], the error, and the reader afterwards. *)
Class Reader (R : Type) := Read : nat → R → list byte * option error * R.

Section io.
Context {R : Type} `{Reader R}.

(** The loop of [io.ReadAtLeast(r, buf, len(buf))]:
    [for n < min && err == nil { nn, err = r.Read(buf[n:]); n += nn }].
    [rem] is [min - n].  A reader that makes progress uses at most [rem]
    rounds; one that keeps returning [0, nil] would spin for ever in Go and
    ends here with [ErrNoProgress]. *)
Fixpoint readLoop (fuel rem : nat) (r : R) : list byte * option error * R :=
  match rem with
  | O => ([], None, r)
  | S _ =>
    match fuel with
    | O => ([], Some ErrNoProgress, r)
    | S fuel' =>
      let '(bs, e, r1) := Read rem r in
      match e with
      | Some _ => (bs, e, r1)
      | None =>
        let '(bs', e', r2) := readLoop fuel' (rem - length bs)%nat r1 in
        (bs ++ bs', e', r2)
      end
    end
  end.

(** [io.ReadFull(r, buf)] with [len(buf) = n]. *)
Definition ReadFull (n : nat) (r : R) : list byte * option error * R :=
  let '(bs, e, r1) := readLoop n n r in
  if (n <=? length bs)%nat then (bs, None, r1)
  else match e with
       | Some EOF => if (0 <? length bs)%nat then (bs, Some ErrUnexpectedEOF, r1)
                     else (bs, Some EOF, r1)
       | _ => (bs, e, r1)
       end.

(** *** readUvarint, readVarint (gonut.go) *)

(** The loop of [readUvarint] with [i] rounds left; [b] is the one-byte
    array, zero when nothing was stored in it. *)
Fixpoint uvarintLoop (i : nat) (x : Z) (r : R) : Z * option error * R :=
  match i with
  | O => (x, Some ErrVarintOverflow, r)
  | S i' =>
    let '(b, e, r1) := ReadFull 1 r in
    match e with
    | Some _ => (x, e, r1)
    | None =>
      let b0 := hd x00 b in
      let x1 := wrap64 (Z.lor (Z.shiftl x 7) (Z.land (byteZ b0) 0x7f)) in
      if byteZ b0 <? 0x80 then (x1, None, r1) else uvarintLoop i' x1 r1
    end
  end.

Definition readUvarint (r : R) : Z * option error * R := uvarintLoop 9 0 r.

Definition readVarint (r : R) : Z * option error * R :=
  let '(u, e, r1) := readUvarint r in
  match e with
  | Some _ => (0, e, r1)
  | None =>
    let u := wrap64 (u + 1) in
    if negb (Z.land u 0x01 =? 0)
    then (toInt64 (-1 * toInt64 (Z.shiftr u 1)), None, r1)
    else (toInt64 (Z.shiftr u 1), None, r1)
  end.
End io.

(** [bytes.Reader]: the unread part of an in-memory byte slice. *)
Record bytesReader : Type := NewReader { unread : list byte }.

Definition bytesReader_Read (n : nat) (r : bytesReader) : list byte * option error * bytesReader :=
  match unread r with
  | [] => ([], Some EOF, r)
  | _ => (take n (unread r), None, NewReader (drop n (unread r)))
  end.

#[export] Instance bytesReader_Reader : Reader bytesReader := bytesReader_Read.

(** [io.LimitedReader]: [N] bytes of [R] are left to hand out. *)
Record LimitedReader (R : Type) : Type := LimitReader { LR : R; LN : Z }.
Arguments LimitReader {R} LR LN.
Arguments LR {R} l.
Arguments LN {R} l.

Definition LimitedReader_Read {R} `{Reader R} (n : nat) (l : LimitedReader R)
  : list byte * option error * LimitedReader R :=
  if LN l <=? 0 then ([], Some EOF, l)
  else
    let n := if LN l <? Z.of_nat n then Z.to_nat (LN l) else n in
    let '(bs, e, r1) := Read n (LR l) in
    (bs, e, LimitReader r1 (LN l - Z.of_nat (length bs))).

#[export] Instance LimitedReader_Reader {R} `{Reader R} : Reader (LimitedReader R) :=
  LimitedReader_Read.

(** [bufio.Reader] with the default buffer size: [buffered] is
    [b.buf[b.r:b.w]], [berr] the error kept for the next empty read. *)
Definition defaultBufSize : nat := 4096.

Record bufioReader (R : Type) : Type :=
  BufioReader { rd : R; buffered : list byte; berr : option error }.
Arguments BufioReader {R} rd buffered berr.
Arguments rd {R} b.
Arguments buffered {R} b.
Arguments berr {R} b.

Definition bufioNewReader {R} (r : R) : bufioReader R := BufioReader r [] None.

Definition bufio_Read {R} `{Reader R} (n : nat) (b : bufioReader R)
  : list byte * option error * bufioReader R :=
  match n with
  | O =>
    match buffered b with
    | [] => ([], berr b, BufioReader (rd b) [] None)
    | _ => ([], None, b)
    end
  | S _ =>
    match buffered b with
    | [] =>
      match berr b with
      | Some e => ([], Some e, BufioReader (rd b) [] None)
      | None =>
        if (defaultBufSize <=? n)%nat then
          (* large read, empty buffer: read directly into p *)
          let '(bs, e, r1) := Read n (rd b) in
          (bs, e, BufioReader r1 [] None)
        else
          (* one read into the buffer, then copy *)
          let '(bs, e, r1) := Read defaultBufSize (rd b) in
          match bs with
          | [] => ([], e, BufioReader r1 [] None)
          | _ => (take n bs, None, BufioReader r1 (drop n bs) e)
          end
      end
    | _ => (take n (buffered b), None, BufioReader (rd b) (drop n (buffered b)) (berr b))
    end
  end.

#[export] Instance bufioReader_Reader {R} `{Reader R} : Reader (bufioReader R) := bufio_Read.

(** ** A small state monad for the methods with pointer receivers *)

Definition stateM (S A : Type) : Type := S → A * S.

Definition sret {S A} (a : A) : stateM S A := λ s, (a, s).
Definition sbind {S A B} (m : stateM S A) (k : A → stateM S B) : stateM S B :=
  λ s, let '(a, s1) := m s in k a s1.

Notation "x <- m ;; k" := (sbind m (λ x, k))
  (at level 100, m at next level, right associativity).
Notation "m ;;; k" := (sbind m (λ _, k))
  (at level 100, right associativity).

(** [if c { x = m }]: run [m] when the guard holds, else keep [x]. *)
Definition swhen {S A} (c : bool) (m : stateM S A) (x : A) : stateM S A :=
  if c then m else sret x.

(** [for j := 0; j < n; j++ { m }] with the results dropped. *)
Fixpoint srepeat {S A} (n : nat) (m : stateM S A) : stateM S unit :=
  match n with
  | O => sret tt
  | S n' => m ;;; srepeat n' m
  end.

(** [for i := 0; i < n; i++ { out[i] = m }]. *)
Fixpoint scollect {S A} (n : nat) (m : stateM S A) : stateM S (list A) :=
  match n with
  | O => sret []
  | S n' => a <- m ;; l <- scollect n' m ;; sret (a :: l)
  end.

(** ** Constants (start codes and frame flags) *)

Definition fileID : list byte := list_byte_of_string "nut/multimedia container" ++ [x00].

Definition mainStartCode : list byte := [x4e; x4d; x7a; x56; x1f; x5f; x04; xad].
Definition streamStartCode : list byte := [x4e; x53; x11; x40; x5b; xf2; xf9; xdb].
Definition syncpointStartCode : list byte := [x4e; x4b; xe4; xad; xee; xca; x45; x69].
Definition indexStartCode : list byte := [x4e; x58; xdd; x67; x2f; x23; xe6; x4e].
Definition infoStartCode : list byte := [x4e; x49; xab; x68; xb5; x96; xba; x78].

Definition flagKey : Z := 1.
Definition flagEOR : Z := 2.
Definition flagCodedPts : Z := 8.
Definition flagStreamID : Z := 16.
Definition flagSizeMSB : Z := 32.
Definition flagChecksum : Z := 64.
Definition flagReserved : Z := 128.
Definition flagHeaderIdx : Z := 1024.
Definition flagMatchTime : Z := 2048.
Definition flagCoded : Z := 4096.
Definition flagInvalid : Z := 8192.

(** [flags&f > 0] *)
Definition hasFlag (flags f : Z) : bool := 0 <? Z.land flags f.

(** ** Data model *)

Record Rational : Type := { numerator : Z; denominator : Z }.

Record frameInfo : Type := {
  flags : Z;
  streams : Z;
  mul : Z;
  lsb : Z;
  ptsDelta : Z;
  reservedCount : Z;
  matchTimeDelta : Z;
  headerIdx : Z;
  streamID : Z
}.

(** The zero value of [frameInfo], as [make] leaves it. *)
Definition zeroFrameInfo : frameInfo :=
  {| flags := 0; streams := 0; mul := 0; lsb := 0; ptsDelta := 0;
     reservedCount := 0; matchTimeDelta := 0; headerIdx := 0; streamID := 0 |}.

Record mainHeader : Type := {
  Version : Z;
  MinorVersion : Z;
  StreamCount : Z;
  MaxDistance : Z;
  TimeBases : list Rational;
  Frames : list frameInfo;
  Flags : Z
}.

Record videoStreamHeader : Type := {
  width : Z; height : Z; sampleWidth : Z; sampleHeight : Z; colorSpaceType : Z
}.

Record auditStreamHeader : Type := {
  sampleRateNum : Z; sampleRateDenom : Z; channelCount : Z
}.

Definition VideoClass : Z := 0.
Definition AudioClass : Z := 1.
Definition SubtitlesClass : Z := 2.
Definition UserData : Z := 3.

Record streamHeader : Type := {
  sh_streamID : Z;
  streamClass : Z;
  fourcc : list byte;
  timeBaseID : Z;
  msbPtsShift : Z;
  maxPtsDistance : Z;
  decodeDelay : Z;
  streamFlags : Z;
  codecSpecific : list byte;
  sh_video : option videoStreamHeader;
  sh_audio : option auditStreamHeader
}.

Inductive sideData : Type :=
| sideUTF8 (name : list byte) (value : list byte)
| sideGeneric (name : list byte) (innerType value : list byte)
| sideInt64 (name : list byte) (value : Z)
| sideUint64 (name : list byte) (value : Z)
| sideTime (name : list byte) (value : Z)
| sideRational (name : list byte) (den num : Z).

Record infoPacket : Type := {
  ip_streamID : Z;
  chapterID : Z;
  chapterStart : Z;
  chapterLen : Z;
  metaData : list sideData
}.

Record syncPoint : Type := { globalKeyPts : Z; backPtrDiv64 : Z }.

Record frame : Type := {
  f_streamID : Z;
  codedPTS : Z;
  dataSizeMsb : Z;
  f_matchTimeDelta : Z;
  f_headerIdx : Z;
  f_res : Z;
  data : list byte;
  dataAccessed : bool
}.

Record PacketHeader : Type := {
  code : list byte;
  packetSize : Z;
  checksum : list byte
}.

Inductive Event : Type :=
| VideoStreamEvent (h : streamHeader)      (* &videoStream{*header} *)
| AudioStreamEvent (h : streamHeader)      (* &audioStream{*header} *)
| StreamEvent (h : streamHeader)           (* header *)
| FrameEvent (f : frame).

(** ** rawPacket and its readers *)

Record rawPacket (R : Type) : Type :=
  RawPacket { p_r : bufioReader (LimitedReader R); p_err : option error }.
Arguments RawPacket {R} p_r p_err.
Arguments p_r {R} _.
Arguments p_err {R} _.

Section packet.
Context {R : Type} `{Reader R}.

(** [(p *rawPacket) readUvarint] *)
Definition p_readUvarint : stateM (rawPacket R) Z := λ p,
  match p_err p with
  | Some _ => (0, p)
  | None =>
    let '(u, e, r1) := readUvarint (p_r p) in
    (u, RawPacket r1 e)
  end.

(** [(p *rawPacket) readVarint] *)
Definition p_readVarint : stateM (rawPacket R) Z := λ p,
  match p_err p with
  | Some _ => (0, p)
  | None =>
    let '(i, e, r1) := readVarint (p_r p) in
    (i, RawPacket r1 e)
  end.

(** [(p *rawPacket) readVarBytes]: the count is used even when its read
    failed, and [data] keeps its zero bytes where nothing was stored. *)
Definition p_readVarBytes : stateM (rawPacket R) (list byte) := λ p,
  match p_err p with
  | Some _ => ([], p)
  | None =>
    let '(byteCount, e1, r1) := readUvarint (p_r p) in
    let n := Z.to_nat byteCount in
    let '(bs, e2, r2) := ReadFull n r1 in
    (bs ++ replicate (n - length bs) x00,
     RawPacket r2 (match e2 with Some _ => e2 | None => e1 end))
  end.
End packet.

(** ** The main header and its frame table *)

(** The variables of [readMainHeader] that survive from one record of the
    frame table to the next. *)
Record tableVars : Type := {
  v_pts : Z; v_mul : Z; v_stream : Z; v_match : Z; v_headIdx : Z
}.

Definition initialVars : tableVars :=
  {| v_pts := 0; v_mul := 1; v_stream := 0; v_match := 1 - Z.shiftl 1 62; v_headIdx := 0 |}.

(** What one record of the table declares. *)
Record tableRun : Type := {
  run_flags : Z; run_size : Z; run_res : Z; run_count : Z; run_vars : tableVars
}.

(** The assignments [h.Frames[i].flags = flags; ...] of the fill loop. *)
Definition fillSlot (run : tableRun) (j : Z) (old : frameInfo) : frameInfo :=
  {| flags := run_flags run;
     streams := streams old;
     mul := v_mul (run_vars run);
     lsb := wrap64 (run_size run + j);
     ptsDelta := v_pts (run_vars run);
     reservedCount := run_res run;
     matchTimeDelta := v_match (run_vars run);
     headerIdx := v_headIdx (run_vars run);
     streamID := v_stream (run_vars run) |}.

(** [h.Frames[i].flags = flagInvalid] *)
Definition markInvalid (old : frameInfo) : frameInfo :=
  {| flags := flagInvalid;
     streams := streams old; mul := mul old; lsb := lsb old; ptsDelta := ptsDelta old;
     reservedCount := reservedCount old; matchTimeDelta := matchTimeDelta old;
     headerIdx := headerIdx old; streamID := streamID old |}.

(** An assignment through [h.Frames[i]]: Go checks the index. *)
Definition updateSlot (f : frameInfo → frameInfo) (i : nat) (tbl : list frameInfo)
  : outcome (list frameInfo) :=
  if (i <? length tbl)%nat then Returns (alter f i tbl)
  else Panics (IndexOutOfRange (Z.of_nat i)).

(** [for j := uint64(0); j < count; j, i = j+1, i+1 { ... }] *)
Fixpoint fillLoop (fuel : nat) (run : tableRun) (j : Z) (i : nat) (tbl : list frameInfo)
  : outcome (nat * list frameInfo) :=
  if j <? run_count run then
    match fuel with
    | O => OutOfFuel
    | S fuel' =>
      if (i =? 0x4E)%nat then
        match updateSlot markInvalid i tbl with
        | Returns tbl1 =>
          let j := wrap64 (j - 1) in
          fillLoop fuel' run (wrap64 (j + 1)) (S i) tbl1
        | Panics x => Panics x
        | OutOfFuel => OutOfFuel
        end
      else
        match updateSlot (fillSlot run j) i tbl with
        | Returns tbl1 => fillLoop fuel' run (wrap64 (j + 1)) (S i) tbl1
        | Panics x => Panics x
        | OutOfFuel => OutOfFuel
        end
    end
  else Returns (i, tbl).

(** The fill loop stops, by the end of the run or by a panic, within
    [257 - i] rounds. *)
Definition fillFuel : nat := 257.

Section mainHeader.
Context {R : Type} `{Reader R}.

(** The reads of one record, from [flags := p.readUvarint()] to the loop
    that skips the unknown fields. *)
Definition readTableRun (v : tableVars) : stateM (rawPacket R) tableRun :=
  flags <- p_readUvarint ;;
  fields <- p_readUvarint ;;
  pts <- swhen (0 <? fields) p_readVarint (v_pts v) ;;
  mul <- swhen (1 <? fields) p_readUvarint (v_mul v) ;;
  stream <- swhen (2 <? fields) p_readUvarint (v_stream v) ;;
  size <- swhen (3 <? fields) p_readUvarint 0 ;;
  res <- swhen (4 <? fields) p_readUvarint 0 ;;
  count <- swhen (5 <? fields) p_readUvarint (wrap64 (mul - size)) ;;
  match_ <- swhen (6 <? fields) p_readVarint (v_match v) ;;
  headIdx <- swhen (7 <? fields) p_readUvarint (v_headIdx v) ;;
  srepeat (Z.to_nat (fields - 8)) p_readUvarint ;;;
  sret {| run_flags := flags; run_size := size; run_res := res; run_count := count;
          run_vars := {| v_pts := pts; v_mul := mul; v_stream := stream;
                         v_match := match_; v_headIdx := headIdx |} |}.

(** [for i := 0; i < 256; { ... }]: one round per record.  The loop has no
    bound of its own in the source (a record may declare an empty run),
    hence the fuel. *)
Fixpoint frameTableLoop (fuel : nat) (i : nat) (v : tableVars) (tbl : list frameInfo)
    (p : rawPacket R) : outcome (list frameInfo * rawPacket R) :=
  if (i <? 256)%nat then
    match fuel with
    | O => OutOfFuel
    | S fuel' =>
      let '(run, p1) := readTableRun v p in
      match fillLoop fillFuel run 0 i tbl with
      | Returns (i1, tbl1) => frameTableLoop fuel' i1 (run_vars run) tbl1 p1
      | Panics x => Panics x
      | OutOfFuel => OutOfFuel
      end
    end
  else Returns (tbl, p).

(** The fields before the frame table. *)
Definition readMainFields : stateM (rawPacket R) (Z * Z * Z * Z * list Rational) :=
  version <- p_readUvarint ;;
  minor <- swhen (3 <? version) p_readUvarint 0 ;;
  streamCount <- p_readUvarint ;;
  maxDistance <- p_readUvarint ;;
  timeBaseCount <- p_readUvarint ;;
  timeBases <- scollect (Z.to_nat timeBaseCount)
                 (n <- p_readUvarint ;; d <- p_readUvarint ;;
                  sret {| numerator := n; denominator := d |}) ;;
  sret (version, minor, streamCount, maxDistance, timeBases).

(** The fields after the frame table: the elision headers, skipped, and
    the flags. *)
Definition readMainTail : stateM (rawPacket R) Z :=
  headerCount <- p_readUvarint ;;
  srepeat (Z.to_nat (wrap64 (headerCount + 1) - 1)) p_readVarBytes ;;;
  p_readUvarint.

(** [(p *rawPacket) readMainHeader]: the header (nil or not), the error,
    and the packet afterwards. *)
Definition readMainHeader (fuel : nat) (p : rawPacket R)
  : outcome (option mainHeader * option error * rawPacket R) :=
  match p_err p with
  | Some e => Returns (None, Some e, p)
  | None =>
    let '(version, minor, streamCount, maxDistance, timeBases, p1) := readMainFields p in
    match frameTableLoop fuel 0 initialVars (replicate 256 zeroFrameInfo) p1 with
    | Returns (tbl, p2) =>
      let '(hflags, p3) := readMainTail p2 in
      Returns (Some {| Version := version; MinorVersion := minor;
                       StreamCount := streamCount; MaxDistance := maxDistance;
                       TimeBases := timeBases; Frames := tbl; Flags := hflags |},
               p_err p3, p3)
    | Panics x => Panics x
    | OutOfFuel => OutOfFuel
    end
  end.
End mainHeader.

(** ** The other packet decoders *)

Section decoders.
Context {R : Type} `{Reader R}.

(** [(p *rawPacket) readStreamHeader] *)
Definition readStreamHeader (p : rawPacket R)
  : option streamHeader * option error * rawPacket R :=
  match p_err p with
  | Some e => (None, Some e, p)
  | None =>
    let '(h, p1) :=
      (streamID <- p_readUvarint ;;
       class <- p_readUvarint ;;
       let class := class mod 256 in
       fourcc <- p_readVarBytes ;;
       timeBaseID <- p_readUvarint ;;
       msbPtsShift <- p_readUvarint ;;
       maxPtsDistance <- p_readUvarint ;;
       decodeDelay <- p_readUvarint ;;
       streamFlags <- p_readUvarint ;;
       codecSpecific <- p_readVarBytes ;;
       video <- (if class =? VideoClass then
                   w <- p_readUvarint ;; h <- p_readUvarint ;;
                   sw <- p_readUvarint ;; sh <- p_readUvarint ;;
                   cs <- p_readUvarint ;;
                   sret (Some {| width := w; height := h; sampleWidth := sw;
                                 sampleHeight := sh; colorSpaceType := cs |})
                 else sret None) ;;
       audio <- (if class =? AudioClass then
                   n <- p_readUvarint ;; d <- p_readUvarint ;; c <- p_readUvarint ;;
                   sret (Some {| sampleRateNum := n; sampleRateDenom := d;
                                 channelCount := c |})
                 else sret None) ;;
       sret {| sh_streamID := streamID; streamClass := class; fourcc := fourcc;
               timeBaseID := timeBaseID; msbPtsShift := msbPtsShift;
               maxPtsDistance := maxPtsDistance; decodeDelay := decodeDelay;
               streamFlags := streamFlags; codecSpecific := codecSpecific;
               sh_video := video; sh_audio := audio |}) p in
    (Some h, p_err p1, p1)
  end.

(** The body of the loop of [readSideData] (side_data.go). *)
Definition readSideEntry : stateM (rawPacket R) sideData :=
  name <- p_readVarBytes ;;
  typeVal <- p_readVarint ;;
  if typeVal =? -1 then
    val <- p_readVarBytes ;; sret (sideUTF8 name val)
  else if typeVal =? -2 then
    innerType <- p_readVarBytes ;; val <- p_readVarBytes ;;
    sret (sideGeneric name innerType val)
  else if typeVal =? -3 then
    val <- p_readVarint ;; sret (sideInt64 name val)
  else if typeVal =? -4 then
    val <- p_readUvarint ;; sret (sideTime name val)
  else if typeVal <? -4 then
    num <- p_readVarint ;;
    sret (sideRational name (toInt64 (toInt64 (- typeVal) - 4)) num)
  else sret (sideUint64 name 0).

(** [(p *rawPacket) readSideData] *)
Definition readSideData : stateM (rawPacket R) (list sideData) := λ p,
  match p_err p with
  | Some _ => ([], p)
  | None => (count <- p_readUvarint ;; scollect (Z.to_nat count) readSideEntry) p
  end.

(** [(p *rawPacket) readInfoPacket] *)
Definition readInfoPacket (p : rawPacket R)
  : option infoPacket * option error * rawPacket R :=
  match p_err p with
  | Some e => (None, Some e, p)
  | None =>
    let '(i, p1) :=
      (streamID <- p_readUvarint ;;
       chapterID <- p_readVarint ;;
       chapterStart <- p_readUvarint ;;
       chapterLen <- p_readUvarint ;;
       metaData <- readSideData ;;
       sret {| ip_streamID := streamID; chapterID := chapterID;
               chapterStart := chapterStart; chapterLen := chapterLen;
               metaData := metaData |}) p in
    (Some i, p_err p1, p1)
  end.

(** [(p *rawPacket) readSyncPoint] *)
Definition readSyncPoint (p : rawPacket R)
  : option syncPoint * option error * rawPacket R :=
  match p_err p with
  | Some e => (None, Some e, p)
  | None =>
    let '(s, p1) :=
      (g <- p_readUvarint ;; b <- p_readUvarint ;;
       sret {| globalKeyPts := g; backPtrDiv64 := b |}) p in
    (Some s, p_err p1, p1)
  end.
End decoders.

(** ** The demuxer *)

Record Demuxer (R : Type) : Type := {
  d_r : R;
  d_mainHeader : option mainHeader;
  d_err : option error;
  readHeaderOnce : bool          (* the sync.Once has fired *)
}.
Arguments d_r {R} _.
Arguments d_mainHeader {R} _.
Arguments d_err {R} _.
Arguments readHeaderOnce {R} _.

Definition NewDemuxer {R} (r : R) : Demuxer R :=
  {| d_r := r; d_mainHeader := None; d_err := None; readHeaderOnce := false |}.

Definition set_r {R} (d : Demuxer R) (r : R) : Demuxer R :=
  {| d_r := r; d_mainHeader := d_mainHeader d; d_err := d_err d;
     readHeaderOnce := readHeaderOnce d |}.
Definition set_err {R} (d : Demuxer R) (e : option error) : Demuxer R :=
  {| d_r := d_r d; d_mainHeader := d_mainHeader d; d_err := e;
     readHeaderOnce := readHeaderOnce d |}.
Definition set_mainHeader {R} (d : Demuxer R) (h : option mainHeader) : Demuxer R :=
  {| d_r := d_r d; d_mainHeader := h; d_err := d_err d;
     readHeaderOnce := readHeaderOnce d |}.
Definition set_once {R} (d : Demuxer R) : Demuxer R :=
  {| d_r := d_r d; d_mainHeader := d_mainHeader d; d_err := d_err d;
     readHeaderOnce := true |}.

Fixpoint bytesEqb (a b : list byte) : bool :=
  match a, b with
  | [], [] => true
  | x :: a', y :: b' => Byte.eqb x y && bytesEqb a' b'
  | _, _ => false
  end.

(** What [ReadEvent] returns: an event with a nil error, or nil with an
    error. *)
Inductive result : Type :=
| GotEvent (ev : Event)
| Failed (e : error).

(** One round of the [for] loop of [ReadEvent] either goes round again or
    returns. *)
Inductive loopStep (R : Type) : Type :=
| Continue (d : Demuxer R)
| Return (res : result) (d : Demuxer R).
Arguments Continue {R} d.
Arguments Return {R} res d.

Section demuxer.
Context {R : Type} `{Reader R}.

(** [(d *Demuxer) readUvarint] *)
Definition d_readUvarint : stateM (Demuxer R) Z := λ d,
  match d_err d with
  | Some _ => (0, d)
  | None =>
    let '(u, e, r1) := readUvarint (d_r d) in
    (u, set_err (set_r d r1) e)
  end.

(** [(d *Demuxer) readVarint] *)
Definition d_readVarint : stateM (Demuxer R) Z := λ d,
  match d_err d with
  | Some _ => (0, d)
  | None =>
    let '(i, e, r1) := readVarint (d_r d) in
    (i, set_err (set_r d r1) e)
  end.

(** [(d *Demuxer) readFileHeader]: the identifier is read, not compared. *)
Definition readFileHeader (d : Demuxer R) : option error * Demuxer R :=
  let '(_, e, r1) := ReadFull (length fileID) (d_r d) in
  (match e with Some err => Some (ErrFileID err) | None => None end, set_r d r1).

(** [(d *Demuxer) readPacketHeader] *)
Definition readPacketHeader (d : Demuxer R) : PacketHeader * option error * Demuxer R :=
  let '(bs, e, r1) := ReadFull 7 (d_r d) in
  let code := x4e :: bs ++ replicate (7 - length bs) x00 in
  let d := set_r d r1 in
  match e with
  | Some _ =>
    ({| code := code; packetSize := 0; checksum := replicate 4 x00 |}, e, set_err d e)
  | None =>
    let '(size, e, r2) := readUvarint (d_r d) in
    let d := set_r d r2 in
    match e with
    | Some _ =>
      ({| code := code; packetSize := size; checksum := replicate 4 x00 |}, e, set_err d e)
    | None =>
      if 4096 <? size then
        let '(cs, e, r3) := ReadFull 4 (d_r d) in
        let d := set_r d r3 in
        let header := {| code := code; packetSize := size;
                         checksum := cs ++ replicate (4 - length cs) x00 |} in
        match e with
        | Some _ => (header, e, set_err d e)
        | None => (header, d_err d, d)
        end
      else
        ({| code := code; packetSize := size; checksum := replicate 4 x00 |}, d_err d, d)
    end
  end.

(** The header fields of [readFrame], from the coded flags to the reserved
    fields: the flags in force, the payload size and the frame so far. *)
Definition readFrameFields (meta : frameInfo) : stateM (Demuxer R) (Z * Z * frame) :=
  codedFlags <- swhen (hasFlag (flags meta) flagCoded) d_readUvarint 0 ;;
  let flags := Z.lxor (flags meta) codedFlags in
  streamID <- swhen (hasFlag flags flagStreamID) d_readUvarint (streamID meta) ;;
  codedPTS <- swhen (hasFlag flags flagCodedPts) d_readUvarint 0 ;;
  dataSizeMsb <- swhen (hasFlag flags flagSizeMSB) d_readUvarint 0 ;;
  let size := if hasFlag flags flagSizeMSB
              then wrap64 (lsb meta + wrap64 (mul meta * dataSizeMsb))
              else lsb meta in
  matchTimeDelta <- swhen (hasFlag flags flagMatchTime) d_readVarint (matchTimeDelta meta) ;;
  headerIdx <- swhen (hasFlag flags flagHeaderIdx) d_readUvarint (headerIdx meta) ;;
  res <- swhen (hasFlag flags flagReserved) d_readUvarint 0 ;;
  srepeat (Z.to_nat res) d_readUvarint ;;;
  sret (flags, size,
        {| f_streamID := streamID; codedPTS := codedPTS; dataSizeMsb := dataSizeMsb;
           f_matchTimeDelta := matchTimeDelta; f_headerIdx := headerIdx; f_res := res;
           data := []; dataAccessed := false |}).

Definition withData (f : frame) (bs : list byte) : frame :=
  {| f_streamID := f_streamID f; codedPTS := codedPTS f; dataSizeMsb := dataSizeMsb f;
     f_matchTimeDelta := f_matchTimeDelta f; f_headerIdx := f_headerIdx f;
     f_res := f_res f; data := bs; dataAccessed := dataAccessed f |}.

(** [(d *Demuxer) readFrame]: a frame with a nil error, or nil with an
    error. *)
Definition readFrame (code : byte) (h : option mainHeader) (d : Demuxer R)
  : outcome ((frame + error) * Demuxer R) :=
  match d_err d with
  | Some e => Returns (inr e, d)
  | None =>
    match h with
    | None => Panics NilDereference
    | Some h =>
      match Frames h !! Z.to_nat (byteZ code) with
      | None => Panics (IndexOutOfRange (byteZ code))
      | Some meta =>
        let '(flags, size, f, d1) := readFrameFields meta d in
        (* the checksum and the payload are read from d.r whatever d.err is *)
        let '(e, d2) :=
          if hasFlag flags flagChecksum then
            let '(_, e, r1) := ReadFull 4 (d_r d1) in (e, set_r d1 r1)
          else (None, d1) in
        match e with
        | Some err => Returns (inr err, set_err d2 e)
        | None =>
          let '(bs, e, r2) := ReadFull (Z.to_nat size) (d_r d2) in
          let d3 := set_r d2 r2 in
          match e with
          | Some err => Returns (inr err, set_err d3 e)
          | None => Returns (inl (withData f bs), d3)
          end
        end
      end
    end
  end.

(** [(d *Demuxer) readIndex]: not implemented in the source, reads
    nothing. *)
Definition readIndex (d : Demuxer R) (p : rawPacket R) : option error * rawPacket R :=
  (None, p).

(** The packet reads through [d.r]; when its decoder is done, the reader of
    the demuxer is where the packet's buffered reader left it. *)
Definition afterPacket (d : Demuxer R) (p : rawPacket R) : Demuxer R :=
  set_r d (LR (rd (p_r p))).

Definition fail (e : error) (d : Demuxer R) : loopStep R :=
  Return (Failed e) (set_err d (Some e)).

(** The packet that [ReadEvent] builds for a start-code packet: a buffered
    reader over at most [packetSize] bytes of the reader of the demuxer. *)
Definition newPacket (d : Demuxer R) (header : PacketHeader) : rawPacket R :=
  RawPacket (bufioNewReader (LimitReader (d_r d) (toInt64 (packetSize header)))) None.

(** [switch header.code { ... }] in [ReadEvent]. *)
Definition dispatch (fuel : nat) (d : Demuxer R) (header : PacketHeader)
  : outcome (loopStep R) :=
  let p := newPacket d header in
  if bytesEqb (code header) mainStartCode then
    match d_mainHeader d with
    | Some _ => Returns (fail ErrSecondMainHeader d)
    | None =>
      match readMainHeader fuel p with
      | Returns (h, _, p1) => Returns (Continue (set_mainHeader (afterPacket d p1) h))
      | Panics x => Panics x
      | OutOfFuel => OutOfFuel
      end
    end
  else if bytesEqb (code header) streamStartCode then
    let '(h, e, p1) := readStreamHeader p in
    let d := afterPacket d p1 in
    match e, h with
    | Some err, _ => Returns (fail err d)
    | None, None => Panics NilDereference
    | None, Some h =>
      if streamClass h =? VideoClass then
        Returns (Return (GotEvent (VideoStreamEvent h)) d)
      else if streamClass h =? AudioClass then
        Returns (Return (GotEvent (AudioStreamEvent h)) d)
      else Returns (Return (GotEvent (StreamEvent h)) d)
    end
  else if bytesEqb (code header) infoStartCode then
    let '(_, e, p1) := readInfoPacket p in
    let d := afterPacket d p1 in
    match e with
    | Some err => Returns (fail err d)
    | None => Returns (Continue d)
    end
  else if bytesEqb (code header) syncpointStartCode then
    let '(_, e, p1) := readSyncPoint p in
    let d := afterPacket d p1 in
    match e with
    | Some err => Returns (fail err d)
    | None => Returns (Continue d)
    end
  else if bytesEqb (code header) indexStartCode then
    let '(e, p1) := readIndex d p in
    let d := afterPacket d p1 in
    match e with
    | Some err => Returns (fail err d)
    | None => Returns (Continue d)
    end
  else Returns (fail (ErrUnknownStartCode (code header)) d).

(** One round of the loop of [ReadEvent]. *)
Definition iteration (fuel : nat) (d : Demuxer R) : outcome (loopStep R) :=
  match d_err d with
  | Some e => Returns (Return (Failed e) d)
  | None =>
    let '(nextByte, e, r1) := ReadFull 1 (d_r d) in
    let d := set_r d r1 in
    match e with
    | Some err => Returns (fail err d)
    | None =>
      if Byte.eqb (hd x00 nextByte) x4e then
        let '(header, e, d) := readPacketHeader d in
        match e with
        | Some err => Returns (fail err d)
        | None => dispatch fuel d header
        end
      else
        match readFrame (hd x00 nextByte) (d_mainHeader d) d with
        | Returns (inl f, d1) => Returns (Return (GotEvent (FrameEvent f)) d1)
        | Returns (inr err, d1) => Returns (fail err d1)
        | Panics x => Panics x
        | OutOfFuel => OutOfFuel
        end
    end
  end.

(** The [for] loop of [ReadEvent]. *)
Fixpoint eventLoop (fuel : nat) (d : Demuxer R) : outcome (result * Demuxer R) :=
  match fuel with
  | O => OutOfFuel
  | S fuel' =>
    match iteration fuel' d with
    | Returns (Continue d1) => eventLoop fuel' d1
    | Returns (Return res d1) => Returns (res, d1)
    | Panics x => Panics x
    | OutOfFuel => OutOfFuel
    end
  end.

(** [d.readHeaderOnce.Do(...)] *)
Definition readHeaderOnceDo (d : Demuxer R) : Demuxer R :=
  if readHeaderOnce d then d
  else
    let '(e, d1) := readFileHeader d in
    set_once (match e with Some _ => set_err d1 e | None => d1 end).

(** [(d *Demuxer) ReadEvent] *)
Definition ReadEvent (fuel : nat) (d : Demuxer R) : outcome (result * Demuxer R) :=
  eventLoop fuel (readHeaderOnceDo d).
End demuxer.

(** ** Notions used to state the properties *)

(** The number of table slots that a run takes when the next slot is [i]
    and [j] of its [count] entries are done: the rest of the run, and the
    reserved slot 0x4E when the run reaches it. *)
Definition runSlots (i : nat) (j count : Z) : Z :=
  if j <? count then
    (count - j) + (if decide (Z.of_nat i ≤ 0x4E < Z.of_nat i + (count - j)) then 1 else 0)
  else 0.

(** The offset of slot [n] within a run that starts at slot [i]: the
    reserved slot 0x4E is not counted. *)
Definition runOffset (i n : nat) : Z :=
  Z.of_nat n - Z.of_nat i - (if decide (i ≤ 0x4E < n)%nat then 1 else 0).

(** The table after a run over the slots from [i] up to [i'], slot by slot. *)
Definition afterRun (run : tableRun) (j : Z) (i i' : nat) (tbl : list frameInfo)
    (n : nat) : option frameInfo :=
  if decide (i ≤ n < i')%nat then
    if decide (n = 0x4E%nat) then markInvalid <$> tbl !! n
    else fillSlot run (j + runOffset i n) <$> tbl !! n
  else tbl !! n.

(** Slot [n] of a finished table has been assigned: the reserved slot by
    the exception, any other slot by a run that started at some slot [i0],
    at its offset within that run. *)
Definition assignedSlot (tbl : list frameInfo) (n : nat) : Prop :=
  if decide (n = 0x4E%nat) then tbl !! n = Some (markInvalid zeroFrameInfo)
  else ∃ run i0, (i0 ≤ n)%nat ∧ 0 ≤ runOffset i0 n < run_count run
                 ∧ tbl !! n = Some (fillSlot run (runOffset i0 n) zeroFrameInfo).

(** The table while it is built: the slots below [i] are assigned, the
    others are as [make] left them. *)
Definition tableInv (i : nat) (tbl : list frameInfo) : Prop :=
  length tbl = 256%nat
  ∧ ∀ n, (n < 256)%nat →
         if decide (n < i)%nat then assignedSlot tbl n else tbl !! n = Some zeroFrameInfo.

(** The second value of a record of the frame table: its field count. *)
Definition p_readuvarint_second {R} `{Reader R} (p : rawPacket R) : Z * rawPacket R :=
  p_readUvarint (snd (p_readUvarint p)).

(** What a round of the loop of [ReadEvent] keeps of the session: the once
    flag always, the stored main header once there is one, the absence of a
    recorded error when the loop goes round again, and the error it returns
    recorded in the session. *)
Definition stepKeeps {R} (d : Demuxer R) (s : loopStep R) : Prop :=
  match s with
  | Continue d1 =>
    readHeaderOnce d1 = readHeaderOnce d
    ∧ d_err d1 = None
    ∧ ∀ h, d_mainHeader d = Some h → d_mainHeader d1 = Some h
  | Return res d1 =>
    readHeaderOnce d1 = readHeaderOnce d
    ∧ d_mainHeader d1 = d_mainHeader d
    ∧ ∀ e, res = Failed e → d_err d1 = Some e
  end.

(** The [n]-th call of [ReadEvent] after the next one. *)
Fixpoint nthCall {R} `{Reader R} (fuel : nat) (n : nat) (d : Demuxer R)
  : outcome (result * Demuxer R) :=
  match n with
  | O => ReadEvent fuel d
  | S n' =>
    match ReadEvent fuel d with
    | Returns (_, d1) => nthCall fuel n' d1
    | Panics x => Panics x
    | OutOfFuel => OutOfFuel
    end
  end.

(** What a caller sees of a call: the result, and of the session the reader
    and the recorded error. *)
Definition observe {R} (o : outcome (result * Demuxer R))
  : outcome (result * R * option error) :=
  match o with
  | Returns (res, d) => Returns (res, d_r d, d_err d)
  | Panics x => Panics x
  | OutOfFuel => OutOfFuel
  end.

(** A stream whose main-header packet is cut short: the packet announces
    two payload bytes, which hold the version and the stream count, and the
    decoder runs into the end of the packet at the next field.  Two frame
    codes follow the packet. *)
Definition truncatedMainPayload : list byte := [x03; x01].
Definition truncatedMainStream : list byte :=
  fileID ++ mainStartCode ++ [x02] ++ truncatedMainPayload ++ [x00; x00].

(** The frame that the all-default table of such a header yields for frame
    code 0. *)
Definition defaultFrame : frame :=
  {| f_streamID := 0; codedPTS := 0; dataSizeMsb := 0;
     f_matchTimeDelta := 1 - Z.shiftl 1 62; f_headerIdx := 0; f_res := 0;
     data := []; dataAccessed := false |}.

(** ** The frame header as the specification words it

    The decoders below work on the bytes that are left of an in-memory
    source, and give up ([None]) where a read fails. *)

Definition decodeUnsigned (src : list byte) : option (Z * list byte) :=
  match readUvarint (NewReader src) with
  | (v, None, r) => Some (v, unread r)
  | _ => None
  end.

Definition decodeSigned (src : list byte) : option (Z * list byte) :=
  match readVarint (NewReader src) with
  | (v, None, r) => Some (v, unread r)
  | _ => None
  end.

(** A field that is read when its flag is set, and has a default else. *)
Definition optField {A} (present : bool) (dec : list byte → option (A * list byte))
    (dflt : A) (src : list byte) : option (A * list byte) :=
  if present then dec src else Some (dflt, src).

(** [n] unsigned varints, read and dropped. *)
Fixpoint skipUnsigned (n : nat) (src : list byte) : option (unit * list byte) :=
  match n with
  | O => Some (tt, src)
  | S n' =>
    match decodeUnsigned src with
    | Some (_, src1) => skipUnsigned n' src1
    | None => None
    end
  end.

(** Exactly [n] bytes. *)
Definition takeBytes (n : nat) (src : list byte) : option (list byte * list byte) :=
  if (n <=? length src)%nat then Some (take n src, drop n src) else None.

Definition thenField {A B} (m : option (A * list byte))
    (k : A → list byte → option B) : option B :=
  match m with
  | Some (a, src) => k a src
  | None => None
  end.

Notation "'field' a 'from' s := m 'in' k" := (thenField m (λ a s, k))
  (at level 10, a name, s name, m at level 100, k at level 200).

(** The header fields in the order of the specification (section 4.6): the
    coded flags XORed into the flags of the table entry, then, each under its
    flag, the stream id, the coded PTS, the size MSB with the payload size
    recomputed, the match-time delta, the header index, the reserved count
    with that many varints dropped. *)
Definition frameFieldsSpec (meta : frameInfo) (src : list byte)
  : option ((Z * Z * frame) * list byte) :=
  field codedFlags from s1 := optField (hasFlag (flags meta) flagCoded) decodeUnsigned 0 src in
  let fl := Z.lxor (flags meta) codedFlags in
  field sid from s2 := optField (hasFlag fl flagStreamID) decodeUnsigned (streamID meta) s1 in
  field pts from s3 := optField (hasFlag fl flagCodedPts) decodeUnsigned 0 s2 in
  field msb from s4 := optField (hasFlag fl flagSizeMSB) decodeUnsigned 0 s3 in
  let size := if hasFlag fl flagSizeMSB
              then wrap64 (lsb meta + wrap64 (mul meta * msb))
              else lsb meta in
  field mtd from s5 := optField (hasFlag fl flagMatchTime) decodeSigned (matchTimeDelta meta) s4 in
  field hidx from s6 := optField (hasFlag fl flagHeaderIdx) decodeUnsigned (headerIdx meta) s5 in
  field res from s7 := optField (hasFlag fl flagReserved) decodeUnsigned 0 s6 in
  field _u from s8 := skipUnsigned (Z.to_nat res) s7 in
  Some (fl, size,
        {| f_streamID := sid; codedPTS := pts; dataSizeMsb := msb;
           f_matchTimeDelta := mtd; f_headerIdx := hidx; f_res := res;
           data := []; dataAccessed := false |}, s8).

(** The whole frame: the header fields, the four checksum bytes when
    flagged, dropped, and exactly [size] bytes of payload. *)
Definition frameSpec (meta : frameInfo) (src : list byte) : option (frame * list byte) :=
  field hdr from s8 := frameFieldsSpec meta src in
  let '(fl, size, f) := hdr in
  field _sum from s9 := (if hasFlag fl flagChecksum then takeBytes 4 s8
                         else Some ([], s8)) in
  field payload from s10 := takeBytes (Z.to_nat size) s9 in
  Some (withData f payload, s10).

(** ** How much of the source a packet takes *)

(** The size-bounded reader has taken [j] more bytes from an in-memory
    source: its allowance went down by [j], the source lost its first [j]
    bytes, and [j] was within the allowance. *)
Definition consumed (j : nat) (l l' : LimitedReader bytesReader) : Prop :=
  LN l' = LN l - Z.of_nat j
  ∧ unread (LR l') = drop j (unread (LR l))
  ∧ (j ≤ length (unread (LR l)))%nat
  ∧ (j = 0%nat ∨ Z.of_nat j ≤ LN l).

Definition advances (l l' : LimitedReader bytesReader) : Prop := ∃ j, consumed j l l'.

(** The same for the packet that reads through it. *)
Definition packetAdvances (p p' : rawPacket bytesReader) : Prop :=
  advances (rd (p_r p)) (rd (p_r p')).

(** Every run of a method relates the state before to the state after. *)
Definition respects {S A} (rel : S → S → Prop) (m : stateM S A) : Prop :=
  ∀ s a s', m s = (a, s') → rel s s'.

(** The session after a round of the loop. *)
Definition stepState {R} (s : loopStep R) : Demuxer R :=
  match s with
  | Continue d => d
  | Return _ d => d
  end.

(** The claim that a start-code packet takes exactly its payload from the
    source: when a round of the loop has read the header of a packet of size
    [s] whose payload is there, the source after the round has lost exactly
    the [s] payload bytes. *)
Definition takesWholePayload (fuel : nat) (d : Demuxer bytesReader) : Prop :=
  ∀ r1 hdr d2 st,
    d_err d = None →
    ReadFull 1 (d_r d) = ([x4e], None, r1) →
    readPacketHeader (set_r d r1) = (hdr, None, d2) →
    (Z.to_nat (packetSize hdr) ≤ length (unread (d_r d2)))%nat →
    iteration fuel d = Returns st →
    unread (d_r (stepState st)) = drop (Z.to_nat (packetSize hdr)) (unread (d_r d2)).

(** A session, past the file header, in front of an index packet with one
    payload byte, followed by one more byte. *)
Definition indexPacketSession : Demuxer bytesReader :=
  {| d_r := NewReader (indexStartCode ++ [x01] ++ [xaa] ++ [xbb]);
     d_mainHeader := None; d_err := None; readHeaderOnce := true |}.

(** ** Sample inputs *)

(** A main-header payload: version 3, one stream, no time base, one record
    of six fields declaring a run of 255 entries, no elision header. *)
Definition sampleMainPayload : list byte :=
  [x03; x01; x00; x00; x00; x06; x00; x01; x00; x00; x00; x81; x7f; x00; x00].

Definition packetOver (payload : list byte) (size : Z) : rawPacket bytesReader :=
  RawPacket (bufioNewReader (LimitReader (NewReader payload) size)) None.

(** A record of four fields with multiplier 1 and base size 2: no explicit
    run length. *)
Definition wrappingMainPayload : list byte :=
  [x03; x01; x00; x00; x00; x04; x00; x01; x00; x02].

(** A run of [count] entries with all-zero fields. *)
Definition sampleRun (count : Z) : tableRun :=
  {| run_flags := 0; run_size := 0; run_res := 0; run_count := count;
     run_vars := initialVars |}.

(** A side-data entry: the name "a", the discriminator -7, the numerator 3. *)
Definition sampleSideEntry : list byte := [x01; x61; x0e; x05].

(** A table entry with coded flags, base size 1 and multiplier 2, and a
    header whose table holds it everywhere. *)
Definition sampleMeta : frameInfo :=
  {| flags := flagCoded; streams := 0; mul := 2; lsb := 1; ptsDelta := 0;
     reservedCount := 0; matchTimeDelta := 0; headerIdx := 0; streamID := 5 |}.

Definition sampleHeader : mainHeader :=
  {| Version := 3; MinorVersion := 0; StreamCount := 1; MaxDistance := 0;
     TimeBases := []; Frames := replicate 256 sampleMeta; Flags := 0 |}.

Definition sessionOver (src : list byte) (h : option mainHeader) : Demuxer bytesReader :=
  {| d_r := NewReader src; d_mainHeader := h; d_err := None; readHeaderOnce := true |}.

(** The frame that the bytes [20 01 aa bb cc] hold under [sampleMeta]: the
    coded flags switch the size MSB on, whose value 1 makes the size 3. *)
Definition sampleFrame : frame :=
  {| f_streamID := 5; codedPTS := 0; dataSizeMsb := 1; f_matchTimeDelta := 0;
     f_headerIdx := 0; f_res := 0; data := [xaa; xbb; xcc]; dataAccessed := false |}.

(** A demuxer method keeps the stored main header and the once flag. *)
Definition keeps {R A} (m : stateM (Demuxer R) A) : Prop :=
  ∀ d a d', m d = (a, d') →
    readHeaderOnce d' = readHeaderOnce d ∧ d_mainHeader d' = d_mainHeader d.

(** A method of the demuxer agrees with a decoder of the remaining bytes:
    where the decoder succeeds the method returns its value and leaves the
    rest in the reader; where it gives up the method records an error. *)
Definition agree {A} (m : stateM (Demuxer bytesReader) A)
    (dec : list byte → option (A * list byte)) : Prop :=
  ∀ d, d_err d = None →
    match dec (unread (d_r d)) with
    | Some (a, s) => m d = (a, set_r d (NewReader s))
    | None => d_err (snd (m d)) ≠ None
    end.

(** A method never clears a recorded error. *)
Definition sticks {A} (m : stateM (Demuxer bytesReader) A) : Prop :=
  ∀ d, d_err d ≠ None → d_err (snd (m d)) ≠ None.

(** The same for the buffered reader over it. *)
Definition bufioAdvances (b b' : bufioReader (LimitedReader bytesReader)) : Prop :=
  advances (rd b) (rd b').

(** The size-bounded reader of a packet whose [s] payload bytes have all
    been fetched from [src]. *)
Definition spentReader (src : list byte) (s : Z) : LimitedReader bytesReader :=
  LimitReader (NewReader (drop (Z.to_nat s) src)) 0.

(** ** Further notions *)

(** The number that groups of seven bits spell, most significant first,
    after the groups already in [acc]. *)
Fixpoint base128 (acc : Z) (bs : list byte) : Z :=
  match bs with
  | [] => acc
  | b :: bs' => base128 (acc * 128 + byteZ b mod 128) bs'
  end.

(** A byte with the continuation bit. *)
Definition continues (b : byte) : Prop := 0x80 ≤ byteZ b.

(** [(f *frame) Data]: the payload is handed out once. *)
Definition Data (f : frame) : option bytesReader * frame :=
  if dataAccessed f then (None, f)
  else (Some (NewReader (data f)),
        {| f_streamID := f_streamID f; codedPTS := codedPTS f;
           dataSizeMsb := dataSizeMsb f; f_matchTimeDelta := f_matchTimeDelta f;
           f_headerIdx := f_headerIdx f; f_res := f_res f; data := data f;
           dataAccessed := true |}).

(** An event of a stream packet states the class its constructor stands
    for and carries the sub-header that the accessors of that class read. *)
Definition streamEventSound (ev : Event) : Prop :=
  match ev with
  | VideoStreamEvent h => streamClass h = VideoClass ∧ is_Some (sh_video h)
  | AudioStreamEvent h => streamClass h = AudioClass ∧ is_Some (sh_audio h)
  | StreamEvent h =>
    streamClass h ≠ VideoClass ∧ streamClass h ≠ AudioClass
    ∧ sh_video h = None ∧ sh_audio h = None
  | FrameEvent _ => False
  end.

(** What a record of the frame table yields once the packet has failed. *)
Definition failedRun (v : tableVars) : tableRun :=
  {| run_flags := 0; run_size := 0; run_res := 0; run_count := wrap64 (v_mul v - 0);
     run_vars := v |}.

(** A stream-header payload: stream 0 of class video, no codec tag, no
    codec data, 100 by 100. *)
Definition sampleStreamPayload : list byte :=
  [x00; x00; x00; x00; x00; x00; x00; x00; x00; x64; x64; x00; x00; x00].

Definition sampleStreamPacketHeader : PacketHeader :=
  {| code := streamStartCode; packetSize := 14; checksum := replicate 4 x00 |}.

(** The table variables with the multiplier at 0. *)
Definition zeroMulVars : tableVars :=
  {| v_pts := 0; v_mul := 0; v_stream := 0; v_match := 1 - Z.shiftl 1 62; v_headIdx := 0 |}.

(** A packet that has failed. *)
Definition failedPacket : rawPacket bytesReader :=
  RawPacket (bufioNewReader (LimitReader (NewReader []) 0)) (Some EOF).

(** * Properties *)

(** ** Machine arithmetic *)

Lemma wrap64_small z : 0 ≤ z < 2 ^ 64 → wrap64 z = z.
Proof. intros Hz. unfold wrap64. apply Z.mod_small, Hz. Qed.

Lemma toInt64_small z : - 2 ^ 63 ≤ z < 2 ^ 63 → toInt64 z = z.
Proof. intros Hz. unfold toInt64. rewrite Z.mod_small; lia. Qed.

Lemma byteZ_range b : 0 ≤ byteZ b < 256.
Proof.
  unfold byteZ. pose proof (Byte.to_N_bounded b) as Hb. lia.
Qed.

Lemma lor_bound a b n : 0 ≤ a < 2 ^ n → 0 ≤ b < 2 ^ n → 0 ≤ Z.lor a b < 2 ^ n.
Proof.
  intros Ha Hb.
  assert (Hnn : 0 ≤ Z.lor a b) by (apply Z.lor_nonneg; lia).
  split; [exact Hnn|].
  destruct (Z.eq_dec (Z.lor a b) 0) as [->|Hne]; [lia|].
  destruct (Z.lt_ge_cases n 0) as [Hn|Hn].
  { rewrite Z.pow_neg_r in Ha by lia. lia. }
  apply Z.log2_lt_pow2; [lia|].
  rewrite Z.log2_lor by lia.
  apply Z.max_lub_lt.
  - destruct (Z.eq_dec a 0) as [->|Ha0].
    + destruct (Z.eq_dec n 0) as [->|Hn0]; [|simpl; lia].
      change (2 ^ 0) with 1 in Hb. assert (b = 0) by lia. subst b. exfalso. apply Hne. reflexivity.
    + apply Z.log2_lt_pow2; lia.
  - destruct (Z.eq_dec b 0) as [->|Hb0].
    + destruct (Z.eq_dec n 0) as [->|Hn0]; [|simpl; lia].
      change (2 ^ 0) with 1 in Ha. assert (a = 0) by lia. subst a. exfalso. apply Hne. reflexivity.
    + apply Z.log2_lt_pow2; lia.
Qed.

(** One more group of seven bits: no bit is lost while fewer than ten
    groups have been read. *)
Lemma uvarint_acc_bound x b k :
  0 ≤ k → 0 ≤ x < 2 ^ (7 * k) →
  0 ≤ Z.lor (Z.shiftl x 7) (Z.land (byteZ b) 0x7f) < 2 ^ (7 * (k + 1)).
Proof.
  intros Hk Hx.
  assert (H7 : 0 ≤ Z.land (byteZ b) 0x7f < 2 ^ 7).
  { change 0x7f with (Z.ones 7). rewrite Z.land_ones by lia.
    apply Z.mod_pos_bound. lia. }
  assert (Hpow : 2 ^ (7 * (k + 1)) = 2 ^ (7 * k) * 2 ^ 7).
  { rewrite <- Z.pow_add_r by lia. f_equal. lia. }
  apply lor_bound.
  - rewrite Z.shiftl_mul_pow2 by lia. rewrite Hpow. nia.
  - rewrite Hpow. nia.
Qed.

Section varint_facts.
Context {R : Type} `{Reader R}.

Lemma uvarintLoop_bound i k x r v e r' :
  (Z.of_nat i + k = 9) → 0 ≤ k → 0 ≤ x < 2 ^ (7 * k) →
  uvarintLoop i x r = (v, e, r') → 0 ≤ v < 2 ^ 63.
Proof.
  revert k x r. induction i as [|i IH]; intros k x r Hik Hk Hx; simpl.
  - assert (k = 9) as -> by lia. intros [= <- _ _]. exact Hx.
  - assert (Hk9 : 2 ^ (7 * k) ≤ 2 ^ 63) by (apply Z.pow_le_mono_r; lia).
    destruct (ReadFull 1 r) as [[b e1] r1].
    destruct e1 as [err|]; [intros [= <- _ _]; lia|].
    pose proof (uvarint_acc_bound x (hd x00 b) k Hk Hx) as Hacc.
    assert (Hle : 2 ^ (7 * (k + 1)) ≤ 2 ^ 63) by (apply Z.pow_le_mono_r; lia).
    rewrite wrap64_small by lia.
    destruct (byteZ (hd x00 b) <? 0x80).
    + intros [= <- _ _]. lia.
    + apply (IH (k + 1)); lia.
Qed.

(** A value read by [readUvarint], complete or not, has at most 63 bits. *)
Lemma readUvarint_bound r v e r' :
  readUvarint r = (v, e, r') → 0 ≤ v < 2 ^ 63.
Proof.
  unfold readUvarint. apply (uvarintLoop_bound 9 0); simpl; lia.
Qed.

(** The bias law of the signed reader, without the machine conversions. *)
Lemma readVarint_of_readUvarint r v r' :
  readUvarint r = (v, None, r') →
  readVarint r =
    (if Z.odd (v + 1) then - Z.shiftr (v + 1) 1 else Z.shiftr (v + 1) 1, None, r').
Proof.
  intros Hu. pose proof (readUvarint_bound _ _ _ _ Hu) as Hv.
  unfold readVarint. rewrite Hu.
  rewrite wrap64_small by lia.
  assert (Hs : 0 ≤ Z.shiftr (v + 1) 1 ≤ 2 ^ 62).
  { rewrite Z.shiftr_div_pow2 by lia. change (2 ^ 1) with 2.
    split; [apply Z.div_pos; lia|].
    apply Z.div_le_upper_bound; lia. }
  assert (Hodd : negb (Z.land (v + 1) 1 =? 0) = Z.odd (v + 1)).
  { change 1 with (Z.ones 1) at 2. rewrite Z.land_ones by lia.
    change (2 ^ 1) with 2. rewrite Zmod_odd. destruct (Z.odd (v + 1)); reflexivity. }
  rewrite Hodd. destruct (Z.odd (v + 1)).
  - rewrite (toInt64_small (Z.shiftr (v + 1) 1)) by lia.
    rewrite toInt64_small by lia. repeat f_equal; lia.
  - rewrite toInt64_small by lia. reflexivity.
Qed.
End varint_facts.

(** C6. Whenever the unsigned read succeeds with value [v], the signed read
    returns, with [u = v + 1], [-(u >> 1)] for odd [u] and [u >> 1] for even
    [u], and leaves the reader where the unsigned read left it; on an
    in-memory source the bytes [01] decode to 1, [81 00] to -64 and [81 01]
    to 65, and whatever follows them is left unread. *)
Theorem readVarint_bias_law :
  (∀ (R : Type) (RR : Reader R) (r r' : R) (v : Z),
      readUvarint r = (v, None, r') →
      let u := v + 1 in
      readVarint r = (if Z.odd u then - Z.shiftr u 1 else Z.shiftr u 1, None, r'))
  ∧ (∀ rest, readVarint (NewReader (x01 :: rest)) = (1, None, NewReader rest))
  ∧ (∀ rest, readVarint (NewReader (x81 :: x00 :: rest)) = (-64, None, NewReader rest))
  ∧ (∀ rest, readVarint (NewReader (x81 :: x01 :: rest)) = (65, None, NewReader rest)).
Proof.
  split; [|split; [|split]].
  - intros R RR r r' v Hu u. subst u. apply readVarint_of_readUvarint, Hu.
  - intros rest. reflexivity.
  - intros rest. reflexivity.
  - intros rest. reflexivity.
Qed.

(** ** The in-memory reader *)

Lemma readLoop_bytes fuel : ∀ rem s,
  (rem ≤ fuel)%nat →
  readLoop fuel rem (NewReader s)
  = if (rem <=? length s)%nat then (take rem s, None, NewReader (drop rem s))
    else (s, Some EOF, NewReader []).
Proof.
  induction fuel as [|fuel IH]; intros rem s Hfuel.
  - assert (rem = 0%nat) as -> by lia. simpl. rewrite drop_0. reflexivity.
  - destruct rem as [|rem]; [simpl; rewrite drop_0; reflexivity|].
    cbn [readLoop]. unfold Read, bytesReader_Reader, bytesReader_Read. simpl unread.
    destruct s as [|b s]; [reflexivity|].
    rewrite IH by (rewrite length_take; cbn [length]; lia).
    rewrite length_take, length_drop.
    destruct (Nat.leb_spec (S rem) (length (b :: s))) as [Hle|Hgt].
    + rewrite Nat.min_l by lia. replace (S rem - S rem)%nat with 0%nat by lia.
      simpl Nat.leb. cbv iota. rewrite take_0, drop_0, app_nil_r. reflexivity.
    + rewrite Nat.min_r by lia.
      destruct (Nat.leb_spec (S rem - length (b :: s)) (length (b :: s) - S rem)) as [Hle'|_];
        [lia|].
      rewrite take_ge by lia. rewrite (drop_ge (b :: s)) by lia.
      rewrite app_nil_r. reflexivity.
Qed.

(** [io.ReadFull] on an in-memory source: the [n] bytes and the rest when
    there are that many, else what is there with EOF (nothing read) or
    ErrUnexpectedEOF (something read), and the source is used up. *)
Lemma ReadFull_bytes n s :
  ReadFull n (NewReader s)
  = if (n <=? length s)%nat then (take n s, None, NewReader (drop n s))
    else (s, Some (match s with [] => EOF | _ => ErrUnexpectedEOF end), NewReader []).
Proof.
  unfold ReadFull. rewrite readLoop_bytes by lia.
  destruct (Nat.leb_spec n (length s)) as [Hle|Hgt].
  - rewrite length_take, Nat.min_l by lia. rewrite Nat.leb_refl. reflexivity.
  - destruct (Nat.leb_spec n (length s)); [lia|].
    destruct s; reflexivity.
Qed.

(** ** The fill loop of the frame table *)

Lemma fillSlot_offset run a b (o : option frameInfo) :
  a = b → fillSlot run a <$> o = fillSlot run b <$> o.
Proof. intros ->. reflexivity. Qed.

Lemma updateSlot_Returns f i tbl tbl1 :
  updateSlot f i tbl = Returns tbl1 → (i < length tbl)%nat ∧ tbl1 = alter f i tbl.
Proof.
  unfold updateSlot. destruct (Nat.ltb_spec i (length tbl)); [|discriminate].
  intros [= <-]. auto.
Qed.

(** What a run that returns has done: it took [runSlots] slots, and wrote
    them as [afterRun] says. *)
Lemma fillLoop_Returns fuel run : ∀ j i tbl i' tbl',
  0 ≤ j → run_count run < 2 ^ 64 →
  fillLoop fuel run j i tbl = Returns (i', tbl') →
  Z.of_nat i' = Z.of_nat i + runSlots i j (run_count run)
  ∧ length tbl' = length tbl
  ∧ ∀ n, tbl' !! n = afterRun run j i i' tbl n.
Proof.
  induction fuel as [|fuel IH]; intros j i tbl i' tbl' Hj Hc; simpl.
  - unfold runSlots. destruct (Z.ltb_spec j (run_count run)); [discriminate|].
    intros [= <- <-]. split; [lia|]. split; [reflexivity|].
    intros n. unfold afterRun. case_decide; [lia|reflexivity].
  - unfold runSlots. destruct (Z.ltb_spec j (run_count run)) as [Hlt|Hge].
    2:{ intros [= <- <-]. split; [lia|]. split; [reflexivity|].
        intros n. unfold afterRun. case_decide; [lia|reflexivity]. }
    destruct (Nat.eqb_spec i 0x4E) as [Hi|Hi].
    + destruct (updateSlot markInvalid i tbl) as [tbl1| |] eqn:Hup; try discriminate.
      apply updateSlot_Returns in Hup as [Hlen ->].
      assert (Hjj : wrap64 (wrap64 (j - 1) + 1) = j).
      { unfold wrap64. rewrite Zplus_mod_idemp_l.
        replace (j - 1 + 1) with j by lia. apply Z.mod_small. lia. }
      rewrite Hjj. intros Hrec.
      apply IH in Hrec as (Hi' & Hlen' & Hn); [|lia|lia].
      rewrite length_alter in Hlen'.
      unfold runSlots in Hi'. destruct (Z.ltb_spec j (run_count run)); [|lia].
      split; [repeat case_decide; lia|]. split; [exact Hlen'|].
      intros n. rewrite Hn. unfold afterRun, runOffset.
      destruct (decide (n = i)) as [->|Hni].
      * rewrite !decide_False by lia. rewrite decide_True by (repeat case_decide; lia).
        rewrite decide_True by exact Hi. apply list_lookup_alter_eq.
      * rewrite list_lookup_alter_ne by congruence.
        repeat case_decide; try lia; try reflexivity.
        all: apply fillSlot_offset; lia.
    + destruct (updateSlot (fillSlot run j) i tbl) as [tbl1| |] eqn:Hup; try discriminate.
      apply updateSlot_Returns in Hup as [Hlen ->].
      rewrite wrap64_small by lia. intros Hrec.
      apply IH in Hrec as (Hi' & Hlen' & Hn); [|lia|lia].
      rewrite length_alter in Hlen'.
      unfold runSlots in Hi'.
      split; [destruct (Z.ltb_spec (j + 1) (run_count run)); repeat case_decide; lia|].
      split; [exact Hlen'|].
      assert (Hle : (S i ≤ i')%nat).
      { destruct (Z.ltb_spec (j + 1) (run_count run)); repeat case_decide; lia. }
      intros n. rewrite Hn. unfold afterRun, runOffset.
      destruct (decide (n = i)) as [->|Hni].
      * rewrite !decide_False by lia. rewrite decide_True by lia.
        rewrite decide_False by exact Hi. rewrite decide_False by lia.
        rewrite list_lookup_alter_eq. apply fillSlot_offset. lia.
      * rewrite list_lookup_alter_ne by congruence.
        repeat case_decide; try lia; try reflexivity.
        all: apply fillSlot_offset; lia.
Qed.

Lemma runSlots_marker j c :
  j < c → Z.of_nat 0x4E + runSlots 0x4E j c = Z.of_nat 0x4F + runSlots 0x4F j c.
Proof.
  intros Hlt. unfold runSlots. destruct (Z.ltb_spec j c); [|lia].
  repeat case_decide; lia.
Qed.

Lemma runSlots_step i j c :
  i ≠ 0x4E%nat → j < c →
  Z.of_nat i + runSlots i j c = Z.of_nat (S i) + runSlots (S i) (j + 1) c.
Proof.
  intros Hi Hlt. unfold runSlots. destruct (Z.ltb_spec j c); [|lia].
  destruct (Z.ltb_spec (j + 1) c); repeat case_decide; lia.
Qed.

(** A run either fits in the slots that are left, and the loop returns, or
    it does not, and the loop indexes the table at 256. *)
Lemma fillLoop_outcome fuel run : ∀ j i tbl,
  length tbl = 256%nat → (i ≤ 256)%nat → (256 < fuel + i)%nat →
  0 ≤ j → run_count run < 2 ^ 64 →
  (Z.of_nat i + runSlots i j (run_count run) ≤ 256 →
   ∃ tbl', fillLoop fuel run j i tbl
           = Returns (Z.to_nat (Z.of_nat i + runSlots i j (run_count run)), tbl'))
  ∧ (256 < Z.of_nat i + runSlots i j (run_count run) →
     fillLoop fuel run j i tbl = Panics (IndexOutOfRange 256)).
Proof.
  induction fuel as [|fuel IH]; intros j i tbl Hlen Hi Hfuel Hj Hc; [lia|].
  simpl. destruct (Z.ltb_spec j (run_count run)) as [Hlt|Hge].
  2:{ unfold runSlots. destruct (Z.ltb_spec j (run_count run)); [lia|].
      split; [|lia]. intros _. exists tbl. do 2 f_equal. lia. }
  destruct (Nat.eqb_spec i 0x4E) as [->|Hne].
  - unfold updateSlot. rewrite Hlen. simpl Nat.ltb. cbv iota.
    assert (Hjj : wrap64 (wrap64 (j - 1) + 1) = j).
    { unfold wrap64. rewrite Zplus_mod_idemp_l.
      replace (j - 1 + 1) with j by lia. apply Z.mod_small. lia. }
    rewrite Hjj. rewrite (runSlots_marker j _ Hlt).
    apply IH; [rewrite length_alter; exact Hlen|lia|lia|lia|lia].
  - unfold updateSlot. rewrite Hlen.
    destruct (Nat.ltb_spec i 256) as [Hlt256|Hge256].
    + rewrite wrap64_small by lia. rewrite (runSlots_step i j _ Hne Hlt).
      apply IH; [rewrite length_alter; exact Hlen|lia|lia|lia|lia].
    + assert (i = 256%nat) as -> by lia.
      assert (0 < runSlots 256 j (run_count run)).
      { unfold runSlots. destruct (Z.ltb_spec j (run_count run)); [|lia].
        case_decide; lia. }
      split; [lia|]. intros _. reflexivity.
Qed.

Lemma runSlots_nonneg i j c : 0 ≤ runSlots i j c.
Proof.
  unfold runSlots. destruct (Z.ltb_spec j c); [|lia]. case_decide; lia.
Qed.

Lemma fillLoop_inv fuel run i tbl i' tbl' :
  run_count run < 2 ^ 64 → tableInv i tbl →
  fillLoop fuel run 0 i tbl = Returns (i', tbl') → tableInv i' tbl'.
Proof.
  intros Hc [Hlen Hinv] Hfill.
  apply fillLoop_Returns in Hfill as (Hi' & Hlen' & Hn); [|lia|exact Hc].
  split; [congruence|].
  intros n Hn256. specialize (Hinv n Hn256).
  assert (Hii' : (i ≤ i')%nat).
  { pose proof (runSlots_nonneg i 0 (run_count run)). lia. }
  destruct (decide (n < i')%nat) as [Hni'|Hni'].
  - destruct (decide (n < i)%nat) as [Hni|Hni].
    + unfold assignedSlot in *.
      destruct (decide (n = 0x4E%nat)).
      * rewrite Hn. unfold afterRun.
        rewrite (decide_False (P := (i ≤ n < i')%nat)) by lia. exact Hinv.
      * destruct Hinv as (run0 & i0 & Hi0 & Hoff & Hlk).
        exists run0, i0. rewrite Hn. unfold afterRun.
        rewrite (decide_False (P := (i ≤ n < i')%nat)) by lia. auto.
    + unfold assignedSlot.
      destruct (decide (n = 0x4E%nat)) as [->|Hn4e].
      * rewrite Hn. unfold afterRun.
        rewrite (decide_True (P := (i ≤ 0x4E < i')%nat)) by lia.
        rewrite decide_True by reflexivity. rewrite Hinv. reflexivity.
      * exists run, i. split; [lia|].
        assert (Hoff : 0 ≤ runOffset i n < run_count run).
        { unfold runOffset. unfold runSlots in Hi'.
          destruct (Z.ltb_spec 0 (run_count run)); repeat case_decide; lia. }
        split; [exact Hoff|]. rewrite Hn. unfold afterRun.
        rewrite (decide_True (P := (i ≤ n < i')%nat)) by lia.
        rewrite decide_False by exact Hn4e. rewrite Hinv, Z.add_0_l. reflexivity.
  - rewrite decide_False in Hinv by lia. rewrite Hn. unfold afterRun.
    rewrite (decide_False (P := (i ≤ n < i')%nat)) by lia. exact Hinv.
Qed.

Section table_facts.
Context {R : Type} `{Reader R}.

Lemma p_readUvarint_bound (p p' : rawPacket R) v :
  p_readUvarint p = (v, p') → 0 ≤ v < 2 ^ 63.
Proof.
  unfold p_readUvarint. destruct (p_err p); [intros [= <- _]; lia|].
  destruct (readUvarint (p_r p)) as [[u e] r1] eqn:Hu. intros [= <- _].
  exact (readUvarint_bound _ _ _ _ Hu).
Qed.

(** The run length of a record is a [uint64]. *)
Lemma readTableRun_count v (p p' : rawPacket R) run :
  readTableRun v p = (run, p') → 0 ≤ run_count run < 2 ^ 64.
Proof.
  unfold readTableRun, sbind.
  repeat match goal with
         | |- context [let '(_, _) := ?m in _] => destruct m as [? ?] eqn:?
         end.
  unfold sret. intros [= <- _]. simpl.
  match goal with
  | Hcnt : swhen _ p_readUvarint (wrap64 _) _ = (_, _) |- _ =>
    unfold swhen in Hcnt; destruct (5 <? _) in Hcnt
  end.
  - match goal with
    | Hcnt : p_readUvarint _ = _ |- _ => apply p_readUvarint_bound in Hcnt
    end. lia.
  - match goal with Hcnt : sret _ _ = _ |- _ => injection Hcnt as <- _ end.
    apply Z.mod_pos_bound. lia.
Qed.

Lemma frameTableLoop_O i v tbl (p : rawPacket R) :
  frameTableLoop 0 i v tbl p
  = if (i <? 256)%nat then OutOfFuel else Returns (tbl, p).
Proof. reflexivity. Qed.

Lemma frameTableLoop_S fuel i v tbl (p : rawPacket R) :
  frameTableLoop (S fuel) i v tbl p
  = if (i <? 256)%nat then
      let '(run, p1) := readTableRun v p in
      match fillLoop fillFuel run 0 i tbl with
      | Returns (i1, tbl1) => frameTableLoop fuel i1 (run_vars run) tbl1 p1
      | Panics x => Panics x
      | OutOfFuel => OutOfFuel
      end
    else Returns (tbl, p).
Proof. reflexivity. Qed.

Lemma frameTableLoop_inv fuel : ∀ i v tbl (p : rawPacket R) tbl' p',
  tableInv i tbl →
  frameTableLoop fuel i v tbl p = Returns (tbl', p') →
  ∃ i', (256 ≤ i')%nat ∧ tableInv i' tbl'.
Proof.
  induction fuel as [|fuel IH]; intros i v tbl p tbl' p' Hinv.
  - rewrite frameTableLoop_O. destruct (Nat.ltb_spec i 256); [discriminate|].
    intros [= <- _]. exists i. auto.
  - rewrite frameTableLoop_S. destruct (Nat.ltb_spec i 256).
    2:{ intros [= <- _]. exists i. auto. }
    destruct (readTableRun v p) as [run p1] eqn:Hrun.
    apply readTableRun_count in Hrun.
    destruct (fillLoop fillFuel run 0 i tbl) as [[i1 tbl1]| |] eqn:Hfill;
      try discriminate.
    intros Hloop. eapply IH; [|exact Hloop].
    eapply fillLoop_inv; [|exact Hinv|exact Hfill]. lia.
Qed.

Lemma tableInv_initial : tableInv 0 (replicate 256 zeroFrameInfo).
Proof.
  split; [apply length_replicate|].
  intros n Hn. rewrite decide_False by lia. apply lookup_replicate_2, Hn.
Qed.

(** Every table that [readMainHeader] returns is fully assigned. *)
Lemma readMainHeader_table fuel (p p' : rawPacket R) h e :
  readMainHeader fuel p = Returns (Some h, e, p') →
  length (Frames h) = 256%nat ∧ ∀ n, (n < 256)%nat → assignedSlot (Frames h) n.
Proof.
  unfold readMainHeader. destruct (p_err p); [discriminate|].
  destruct (readMainFields p) as [[[[[version minor] sc] md] tbs] p1].
  destruct (frameTableLoop fuel 0 initialVars (replicate 256 zeroFrameInfo) p1)
    as [[tbl p2]| |] eqn:Hloop; try discriminate.
  destruct (readMainTail p2) as [hflags p3]. intros [= <- _ _]. simpl.
  apply frameTableLoop_inv in Hloop as (i' & Hi' & Hlen & Hinv);
    [|apply tableInv_initial].
  split; [exact Hlen|]. intros n Hn. specialize (Hinv n Hn).
  rewrite decide_True in Hinv by lia. exact Hinv.
Qed.
End table_facts.

Section table_claims.
Context {R : Type} `{Reader R}.

(** Without an explicit run length (fewer than six fields) the run length
    is [mul - size] in unsigned 64-bit arithmetic. *)
Lemma readTableRun_default_count v (p : rawPacket R) :
  let fields := fst (p_readuvarint_second p) in
  fields ≤ 5 →
  let run := fst (readTableRun v p) in
  run_count run = wrap64 (v_mul (run_vars run) - run_size run).
Proof.
  unfold p_readuvarint_second, readTableRun, sbind.
  destruct (p_readUvarint p) as [fl p1]. cbn [fst snd].
  destruct (p_readUvarint p1) as [fields p2]. cbn [fst snd].
  intros Hf.
  repeat match goal with
         | |- context [let '(_, _) := ?m in _] => destruct m as [? ?] eqn:?
         end.
  unfold sret. simpl.
  match goal with
  | Hcnt : swhen (5 <? fields) _ _ _ = (_, _) |- _ =>
    unfold swhen in Hcnt; destruct (Z.ltb_spec 5 fields); [lia|];
      injection Hcnt as <- _
  end.
  reflexivity.
Qed.

Lemma frameTableLoop_Panics fuel i v tbl (p : rawPacket R) :
  length tbl = 256%nat → (i < 256)%nat →
  256 < Z.of_nat i + runSlots i 0 (run_count (fst (readTableRun v p))) →
  frameTableLoop (S fuel) i v tbl p = Panics (IndexOutOfRange 256).
Proof.
  intros Hlen Hi Hbig. rewrite frameTableLoop_S.
  destruct (Nat.ltb_spec i 256); [|lia].
  destruct (readTableRun v p) as [run p1] eqn:Hrun.
  pose proof (readTableRun_count _ _ _ _ Hrun) as Hc. simpl in Hbig.
  destruct (fillLoop_outcome fillFuel run 0 i tbl Hlen) as [_ Hp];
    [lia|unfold fillFuel; lia|lia|lia|].
  rewrite (Hp Hbig). reflexivity.
Qed.
End table_claims.

(** C1. The frame table is built by run-length expansion.  A run that fits
    takes [runSlots] slots from the current index on: every slot of it but
    slot 0x4E receives the flags, stream id, multiplier, ptsDelta,
    reservedCount, matchTimeDelta and headerIdx of the record, and as base
    size the base size of the record plus the offset of the slot within the
    run; slot 0x4E, when the run reaches it, only has its flags set to
    Invalid and is not counted in the run; the other slots are untouched.
    Every table that the main-header decoder returns has 256 slots, all of
    them assigned, with the Invalid flag in slot 0x4E whatever was
    encoded. *)
Theorem frame_table_construction :
  (∀ run i tbl,
      length tbl = 256%nat → 0 ≤ run_count run < 2 ^ 64 →
      Z.of_nat i + runSlots i 0 (run_count run) ≤ 256 →
      ∃ i' tbl',
        fillLoop fillFuel run 0 i tbl = Returns (i', tbl')
        ∧ Z.of_nat i' = Z.of_nat i + runSlots i 0 (run_count run)
        ∧ length tbl' = 256%nat
        ∧ ∀ n, tbl' !! n = afterRun run 0 i i' tbl n)
  ∧ (∀ (R : Type) (RR : Reader R) fuel (p p' : rawPacket R) h e,
        readMainHeader fuel p = Returns (Some h, e, p') →
        length (Frames h) = 256%nat
        ∧ flags <$> Frames h !! 0x4E%nat = Some flagInvalid
        ∧ ∀ n, (n < 256)%nat → assignedSlot (Frames h) n).
Proof.
  split.
  - intros run i tbl Hlen Hc Hfit.
    pose proof (runSlots_nonneg i 0 (run_count run)) as Hnn.
    destruct (fillLoop_outcome fillFuel run 0 i tbl Hlen) as [Hret _];
      [lia|unfold fillFuel; lia|lia|lia|].
    destruct (Hret Hfit) as [tbl' Hfill].
    pose proof (fillLoop_Returns _ _ _ _ _ _ _ (Z.le_refl 0) (proj2 Hc) Hfill)
      as (Hi' & Hlen' & Hn).
    eexists _, tbl'. split; [exact Hfill|].
    split; [exact Hi'|]. split; [congruence|exact Hn].
  - intros R RR fuel p p' h e Hret.
    apply readMainHeader_table in Hret as [Hlen Hall].
    split; [exact Hlen|]. split; [|exact Hall].
    specialize (Hall 0x4E%nat ltac:(lia)). unfold assignedSlot in Hall.
    rewrite decide_True in Hall by reflexivity. rewrite Hall. reflexivity.
Qed.

(** C10. The fill loop of a record has no bound check of its own.  A run
    that fits in the slots left returns within the 256 entries; a run that
    does not fit makes the loop index the table at 256, which is a run-time
    panic: the loop neither stops at the bound nor returns an error, and the
    table loop and the main-header decoder end with that panic.  The run
    length of a record without an explicit one is [mul - size] in unsigned
    64-bit arithmetic, that is [2^64 - (size - mul)] when the base size
    exceeds the multiplier. *)
Theorem frame_table_bound_unchecked :
  (∀ run i tbl,
      length tbl = 256%nat → (i < 256)%nat → 0 ≤ run_count run < 2 ^ 64 →
      (Z.of_nat i + runSlots i 0 (run_count run) ≤ 256 →
       ∃ i' tbl', fillLoop fillFuel run 0 i tbl = Returns (i', tbl')
                  ∧ (i' ≤ 256)%nat ∧ length tbl' = 256%nat)
      ∧ (256 < Z.of_nat i + runSlots i 0 (run_count run) →
         fillLoop fillFuel run 0 i tbl = Panics (IndexOutOfRange 256)))
  ∧ (∀ (R : Type) (RR : Reader R) fuel i v tbl (p : rawPacket R),
        length tbl = 256%nat → (i < 256)%nat →
        256 < Z.of_nat i + runSlots i 0 (run_count (fst (readTableRun v p))) →
        frameTableLoop (S fuel) i v tbl p = Panics (IndexOutOfRange 256))
  ∧ (∀ (R : Type) (RR : Reader R) fuel (p : rawPacket R),
        p_err p = None →
        256 < runSlots 0 0 (run_count (fst (readTableRun initialVars
                                              (snd (readMainFields p))))) →
        readMainHeader (S fuel) p = Panics (IndexOutOfRange 256))
  ∧ (∀ (R : Type) (RR : Reader R) v (p : rawPacket R),
        fst (p_readuvarint_second p) ≤ 5 →
        let run := fst (readTableRun v p) in
        run_count run = wrap64 (v_mul (run_vars run) - run_size run))
  ∧ (∀ m s, 0 ≤ m → m < s → s < 2 ^ 64 → wrap64 (m - s) = 2 ^ 64 - (s - m)).
Proof.
  split; [|split; [|split; [|split]]].
  - intros run i tbl Hlen Hi Hc.
    destruct (fillLoop_outcome fillFuel run 0 i tbl Hlen) as [Hret Hpanic];
      [lia|unfold fillFuel; lia|lia|lia|].
    split; [|exact Hpanic].
    intros Hfit. destruct (Hret Hfit) as [tbl' Hfill].
    pose proof (fillLoop_Returns _ _ _ _ _ _ _ (Z.le_refl 0) (proj2 Hc) Hfill)
      as (Hi' & Hlen' & _).
    eexists _, tbl'. split; [exact Hfill|]. split; [lia|congruence].
  - intros R RR fuel i v tbl p. apply frameTableLoop_Panics.
  - intros R RR fuel p Herr Hbig. unfold readMainHeader. rewrite Herr.
    destruct (readMainFields p) as [[[[[version minor] sc] md] tbs] p1].
    simpl snd in Hbig.
    rewrite frameTableLoop_Panics; [reflexivity|apply length_replicate|lia|].
    simpl Z.of_nat. lia.
  - intros R RR v p. apply readTableRun_default_count.
  - intros m s Hm Hms Hs. unfold wrap64.
    replace (m - s) with (2 ^ 64 - (s - m) + (-1) * 2 ^ 64) by lia.
    rewrite Z.mod_add by lia. apply Z.mod_small. lia.
Qed.

(** ** The session: what a call of [ReadEvent] keeps *)

Section session_facts.
Context {R : Type} `{Reader R}.

Lemma keeps_sret {A} (a : A) : keeps (sret a : stateM (Demuxer R) A).
Proof. intros d a' d' [= _ <-]. auto. Qed.

Lemma keeps_sbind {A B} (m : stateM (Demuxer R) A) (k : A → stateM (Demuxer R) B) :
  keeps m → (∀ a, keeps (k a)) → keeps (sbind m k).
Proof.
  intros Hm Hk d b d'. unfold sbind. destruct (m d) as [a d1] eqn:Hmd.
  intros Hkd. apply Hm in Hmd as [H1 H2]. apply Hk in Hkd as [H3 H4].
  split; congruence.
Qed.

Lemma keeps_swhen {A} c (m : stateM (Demuxer R) A) x : keeps m → keeps (swhen c m x).
Proof. intros Hm. destruct c; simpl; [exact Hm|apply keeps_sret]. Qed.

Lemma keeps_srepeat {A} n (m : stateM (Demuxer R) A) : keeps m → keeps (srepeat n m).
Proof.
  intros Hm. induction n as [|n IH]; simpl; [apply keeps_sret|].
  apply keeps_sbind; auto.
Qed.

Lemma keeps_d_readUvarint : keeps d_readUvarint.
Proof.
  intros d a d'. unfold d_readUvarint. destruct (d_err d); [intros [= _ <-]; auto|].
  destruct (readUvarint (d_r d)) as [[u e] r1]. intros [= _ <-]. auto.
Qed.

Lemma keeps_d_readVarint : keeps d_readVarint.
Proof.
  intros d a d'. unfold d_readVarint. destruct (d_err d); [intros [= _ <-]; auto|].
  destruct (readVarint (d_r d)) as [[u e] r1]. intros [= _ <-]. auto.
Qed.

Lemma keeps_readFrameFields meta : keeps (readFrameFields meta).
Proof.
  unfold readFrameFields.
  apply keeps_sbind; [apply keeps_swhen, keeps_d_readUvarint|intros codedFlags].
  apply keeps_sbind; [apply keeps_swhen, keeps_d_readUvarint|intros sid].
  apply keeps_sbind; [apply keeps_swhen, keeps_d_readUvarint|intros pts].
  apply keeps_sbind; [apply keeps_swhen, keeps_d_readUvarint|intros msb].
  apply keeps_sbind; [apply keeps_swhen, keeps_d_readVarint|intros mtd].
  apply keeps_sbind; [apply keeps_swhen, keeps_d_readUvarint|intros hidx].
  apply keeps_sbind; [apply keeps_swhen, keeps_d_readUvarint|intros res].
  apply keeps_sbind; [apply keeps_srepeat, keeps_d_readUvarint|intros _].
  apply keeps_sret.
Qed.

Lemma readFrame_keeps code h (d d' : Demuxer R) x :
  readFrame code h d = Returns (x, d') →
  readHeaderOnce d' = readHeaderOnce d ∧ d_mainHeader d' = d_mainHeader d
  ∧ ∀ err, x = inr err → d_err d' = Some err.
Proof.
  unfold readFrame. destruct (d_err d) as [e0|] eqn:He0.
  { intros [= <- <-]. split; [reflexivity|]. split; [reflexivity|].
    intros err [= <-]. exact He0. }
  destruct h as [h|]; [|discriminate].
  destruct (Frames h !! Z.to_nat (byteZ code)) as [meta|]; [|discriminate].
  destruct (readFrameFields meta d) as [[[fl size] f] d1] eqn:Hfields.
  apply keeps_readFrameFields in Hfields as [Honce Hmh].
  destruct (hasFlag fl flagChecksum).
  - destruct (ReadFull 4 (d_r d1)) as [[cs e] r1]. destruct e as [err|].
    + intros [= <- <-]. simpl. split; [exact Honce|]. split; [exact Hmh|].
      intros err' [= <-]. reflexivity.
    + destruct (ReadFull (Z.to_nat size) (d_r (set_r d1 r1))) as [[bs e] r2].
      destruct e as [err|]; intros [= <- <-]; simpl;
        (split; [exact Honce|]; split; [exact Hmh|]); intros err' [=].
      subst. reflexivity.
  - destruct (ReadFull (Z.to_nat size) (d_r d1)) as [[bs e] r2].
    destruct e as [err|]; intros [= <- <-]; simpl;
      (split; [exact Honce|]; split; [exact Hmh|]); intros err' [=].
    subst. reflexivity.
Qed.

Lemma readPacketHeader_keeps (d d' : Demuxer R) hdr e :
  readPacketHeader d = (hdr, e, d') →
  readHeaderOnce d' = readHeaderOnce d ∧ d_mainHeader d' = d_mainHeader d
  ∧ (d_err d = None → e = None → d_err d' = None).
Proof.
  unfold readPacketHeader.
  destruct (ReadFull 7 (d_r d)) as [[bs e1] r1].
  destruct e1 as [err|]; [intros [= _ <- <-]; simpl; auto|].
  destruct (readUvarint (d_r (set_r d r1))) as [[size e2] r2].
  destruct e2 as [err|]; [intros [= _ <- <-]; simpl; auto|].
  destruct (4096 <? size).
  - destruct (ReadFull 4 (d_r (set_r (set_r d r1) r2))) as [[cs e3] r3].
    destruct e3 as [err|]; intros [= _ <- <-]; simpl; repeat split; auto;
      discriminate.
  - intros [= _ <- <-]; simpl; auto.
Qed.
End session_facts.

Section iteration_facts.
Context {R : Type} `{Reader R}.

Local Ltac finish :=
  intros [= <-]; simpl; repeat split; intros; simplify_eq; simpl in *;
  try congruence; auto.

Lemma iteration_keeps fuel (d : Demuxer R) s :
  iteration fuel d = Returns s → stepKeeps d s.
Proof.
  unfold iteration. destruct (d_err d) as [e0|] eqn:He0; [finish|].
  destruct (ReadFull 1 (d_r d)) as [[nb e] r1].
  destruct e as [err|]; [finish|].
  destruct (Byte.eqb (hd x00 nb) x4e).
  - destruct (readPacketHeader (set_r d r1)) as [[hdr e] d2] eqn:Hph.
    apply readPacketHeader_keeps in Hph as (Ho & Hm & He). simpl in Ho, Hm, He.
    destruct e as [err|]; [finish|].
    specialize (He He0 eq_refl). unfold dispatch.
    destruct (bytesEqb (code hdr) mainStartCode).
    { destruct (d_mainHeader d2) eqn:Hmh; [finish|].
      destruct (readMainHeader fuel _) as [[[h e] p1]| |]; [|discriminate..].
      finish. }
    destruct (bytesEqb (code hdr) streamStartCode).
    { destruct (readStreamHeader _) as [[h e] p1].
      destruct e as [err|]; [finish|].
      destruct h as [h|]; [|discriminate].
      destruct (streamClass h =? VideoClass); [finish|].
      destruct (streamClass h =? AudioClass); finish. }
    destruct (bytesEqb (code hdr) infoStartCode).
    { destruct (readInfoPacket _) as [[i e] p1]. destruct e as [err|]; finish. }
    destruct (bytesEqb (code hdr) syncpointStartCode).
    { destruct (readSyncPoint _) as [[i e] p1]. destruct e as [err|]; finish. }
    destruct (bytesEqb (code hdr) indexStartCode); finish.
  - destruct (readFrame _ _ _) as [[x d1]| |] eqn:Hrf; [|discriminate..].
    apply readFrame_keeps in Hrf as (Ho & Hm & He). simpl in Ho, Hm.
    destruct x as [f|err]; [finish|].
    specialize (He err eq_refl). finish.
Qed.

Lemma eventLoop_keeps fuel : ∀ (d d1 : Demuxer R) res,
  eventLoop fuel d = Returns (res, d1) →
  readHeaderOnce d1 = readHeaderOnce d
  ∧ (∀ h, d_mainHeader d = Some h → d_mainHeader d1 = Some h)
  ∧ ∀ e, res = Failed e → d_err d1 = Some e.
Proof.
  induction fuel as [|fuel IH]; intros d d1 res; simpl; [discriminate|].
  destruct (iteration fuel d) as [[d2|res2 d2]| |] eqn:Hit; try discriminate.
  - apply iteration_keeps in Hit as (Ho & _ & Hm). intros Hloop.
    apply IH in Hloop as (Ho' & Hm' & He'). split; [congruence|]. split; auto.
  - apply iteration_keeps in Hit as (Ho & Hm & He). intros [= <- <-].
    split; [exact Ho|]. split; [intros h Hh; congruence|exact He].
Qed.

Lemma readHeaderOnceDo_once (d : Demuxer R) :
  readHeaderOnce (readHeaderOnceDo d) = true
  ∧ d_mainHeader (readHeaderOnceDo d) = d_mainHeader d.
Proof.
  unfold readHeaderOnceDo. destruct (readHeaderOnce d) eqn:Ho; [auto|].
  unfold readFileHeader. destruct (ReadFull _ _) as [[bs e] r1].
  destruct e; simpl; auto.
Qed.

Lemma ReadEvent_keeps fuel (d d1 : Demuxer R) res :
  ReadEvent fuel d = Returns (res, d1) →
  readHeaderOnce d1 = true
  ∧ (∀ h, d_mainHeader d = Some h → d_mainHeader d1 = Some h)
  ∧ ∀ e, res = Failed e → d_err d1 = Some e.
Proof.
  unfold ReadEvent. intros Hloop.
  apply eventLoop_keeps in Hloop as (Ho & Hm & He).
  destruct (readHeaderOnceDo_once d) as [Ho' Hm'].
  split; [congruence|]. split; [|exact He].
  intros h Hh. apply Hm. congruence.
Qed.

(** Once an error is recorded, a call returns it and changes nothing. *)
Lemma ReadEvent_recorded fuel (d : Demuxer R) e :
  readHeaderOnce d = true → d_err d = Some e →
  ReadEvent (S fuel) d = Returns (Failed e, d).
Proof.
  intros Ho He. unfold ReadEvent, readHeaderOnceDo. rewrite Ho.
  simpl. unfold iteration. rewrite He. reflexivity.
Qed.

Lemma nthCall_recorded fuel n (d : Demuxer R) e :
  readHeaderOnce d = true → d_err d = Some e →
  nthCall (S fuel) n d = Returns (Failed e, d).
Proof.
  intros Ho He. induction n as [|n IH]; cbn [nthCall].
  - apply ReadEvent_recorded; assumption.
  - rewrite (ReadEvent_recorded fuel d e Ho He). exact IH.
Qed.
End iteration_facts.

(** C4. After any call of [ReadEvent] that leaves an error recorded in the
    session, every later call returns that same error, no event and no other
    error, and leaves the session as it is; and an error that a call returns
    is recorded by that call. *)
Theorem error_stickiness (R : Type) (RR : Reader R) fuel (d d1 : Demuxer R) res e :
  ReadEvent fuel d = Returns (res, d1) →
  (res = Failed e → d_err d1 = Some e)
  ∧ (d_err d1 = Some e →
     ∀ fuel' n, nthCall (S fuel') n d1 = Returns (Failed e, d1)).
Proof.
  intros Hcall. apply ReadEvent_keeps in Hcall as (Ho & _ & He).
  split; [apply He|].
  intros Herr fuel' n. apply nthCall_recorded; assumption.
Qed.

Lemma bytesEqb_refl a : bytesEqb a a = true.
Proof.
  induction a as [|x a IH]; simpl; [reflexivity|].
  rewrite IH, (Byte.byte_dec_lb eq_refl). reflexivity.
Qed.

Section header_facts.
Context {R : Type} `{Reader R}.

Lemma readMainHeader_Some fuel (p p1 : rawPacket R) h e :
  p_err p = None → readMainHeader fuel p = Returns (h, e, p1) → ∃ h', h = Some h'.
Proof.
  unfold readMainHeader. intros ->.
  destruct (readMainFields p) as [[[[[version minor] sc] md] tbs] p0].
  destruct (frameTableLoop _ _ _ _ _) as [[tbl p2]| |]; try discriminate.
  destruct (readMainTail p2) as [hflags p3]. intros [= <- _ _]. eauto.
Qed.

(** The round of the loop that meets a main-header start code. *)
Lemma iteration_main fuel (d d2 : Demuxer R) r1 hdr :
  d_err d = None →
  ReadFull 1 (d_r d) = ([x4e], None, r1) →
  readPacketHeader (set_r d r1) = (hdr, None, d2) →
  code hdr = mainStartCode →
  iteration fuel d
  = match d_mainHeader d2 with
    | Some _ => Returns (fail ErrSecondMainHeader d2)
    | None =>
      match readMainHeader fuel (newPacket d2 hdr) with
      | Returns (h, _, p1) => Returns (Continue (set_mainHeader (afterPacket d2 p1) h))
      | Panics x => Panics x
      | OutOfFuel => OutOfFuel
      end
    end.
Proof.
  intros He Hb Hph Hcode. unfold iteration. rewrite He, Hb. simpl hd.
  change (Byte.eqb x4e x4e) with true. cbv iota. rewrite Hph.
  unfold dispatch. rewrite Hcode, bytesEqb_refl. reflexivity.
Qed.
End header_facts.

(** C8. A session holds at most one main header.  The main-header packet
    met while none is stored is decoded and its header stored; a main-header
    start code met while one is stored makes the call return the
    second-main-header error, recorded for all later calls, with the stored
    header unchanged; and no call that returns changes a stored header. *)
Theorem single_main_header (R : Type) (RR : Reader R) fuel
    (d d2 : Demuxer R) r1 hdr :
  d_err d = None →
  ReadFull 1 (d_r d) = ([x4e], None, r1) →
  readPacketHeader (set_r d r1) = (hdr, None, d2) →
  code hdr = mainStartCode →
  (d_mainHeader d = None →
   ∀ h e p1, readMainHeader fuel (newPacket d2 hdr) = Returns (h, e, p1) →
     iteration fuel d = Returns (Continue (set_mainHeader (afterPacket d2 p1) h))
     ∧ ∃ h', h = Some h')
  ∧ (∀ h, d_mainHeader d = Some h → readHeaderOnce d = true →
     let d' := set_err d2 (Some ErrSecondMainHeader) in
     ReadEvent (S fuel) d = Returns (Failed ErrSecondMainHeader, d')
     ∧ d_mainHeader d' = Some h
     ∧ ∀ fuel' n, nthCall (S fuel') n d' = Returns (Failed ErrSecondMainHeader, d'))
  ∧ (∀ h fuel' (d0 d1 : Demuxer R) res,
     d_mainHeader d0 = Some h → ReadEvent fuel' d0 = Returns (res, d1) →
     d_mainHeader d1 = Some h).
Proof.
  intros He Hb Hph Hcode.
  pose proof (readPacketHeader_keeps _ _ _ _ Hph) as (Ho & Hm & _).
  simpl in Ho, Hm.
  split; [|split].
  - intros Hnone h e p1 Hmain.
    rewrite (iteration_main fuel d d2 r1 hdr He Hb Hph Hcode).
    rewrite Hm, Hnone, Hmain. split; [reflexivity|].
    eapply readMainHeader_Some; [|exact Hmain]. reflexivity.
  - intros h Hsome Honce d'.
    assert (Hcall : ReadEvent (S fuel) d = Returns (Failed ErrSecondMainHeader, d')).
    { unfold ReadEvent, readHeaderOnceDo. rewrite Honce. cbn [eventLoop].
      rewrite (iteration_main fuel d d2 r1 hdr He Hb Hph Hcode).
      rewrite Hm, Hsome. reflexivity. }
    split; [exact Hcall|]. split; [simpl; congruence|].
    intros fuel' n. apply nthCall_recorded; [simpl; congruence|reflexivity].
  - intros h fuel' d0 d1 res Hsome Hcall.
    apply ReadEvent_keeps in Hcall as (_ & Hkeep & _). apply Hkeep, Hsome.
Qed.

(** C9. A frame code met while no main header is stored makes [ReadEvent]
    call the frame decoder with a nil main header: the lookup in the frame
    table dereferences nil and the call panics; no error is returned. *)
Theorem frame_without_main_header (R : Type) (RR : Reader R) fuel
    (d : Demuxer R) c r1 :
  d_err (readHeaderOnceDo d) = None →
  d_mainHeader d = None →
  ReadFull 1 (d_r (readHeaderOnceDo d)) = ([c], None, r1) →
  c ≠ x4e →
  ReadEvent (S fuel) d = Panics NilDereference.
Proof.
  intros He Hm Hb Hc. unfold ReadEvent. cbn [eventLoop]. unfold iteration.
  rewrite He, Hb. simpl hd.
  destruct (Byte.eqb c x4e) eqn:Heq.
  { apply Byte.byte_dec_bl in Heq. contradiction. }
  unfold readFrame. simpl d_err. rewrite He. simpl d_mainHeader.
  rewrite (proj2 (readHeaderOnceDo_once d)), Hm. reflexivity.
Qed.

Section main_header_error.
Context {R : Type} `{Reader R}.

(** The error that [readMainHeader] returns is assigned in [ReadEvent] and
    never looked at: the loop goes round again with the header stored and
    no error recorded. *)
Lemma iteration_main_error_dropped fuel (d d2 : Demuxer R) r1 hdr h e p1 :
  d_err d = None → d_mainHeader d = None →
  ReadFull 1 (d_r d) = ([x4e], None, r1) →
  readPacketHeader (set_r d r1) = (hdr, None, d2) →
  code hdr = mainStartCode →
  readMainHeader fuel (newPacket d2 hdr) = Returns (h, Some e, p1) →
  ∃ d', iteration fuel d = Returns (Continue d')
        ∧ d_err d' = None ∧ d_mainHeader d' = h.
Proof.
  intros He Hm Hb Hph Hcode Hmain.
  pose proof (readPacketHeader_keeps _ _ _ _ Hph) as (_ & Hm2 & He2).
  simpl in Hm2, He2.
  rewrite (iteration_main fuel d d2 r1 hdr He Hb Hph Hcode).
  rewrite Hm2, Hm, Hmain. eexists. split; [reflexivity|].
  split; [simpl; auto|reflexivity].
Qed.
End main_header_error.

(** C2 (the code departs from it). On a stream whose main-header packet is
    cut short, the main-header decoder fails with EOF inside the packet, yet
    the call of [ReadEvent] that processed the packet returns a frame event,
    records no error, and the next call returns a frame event as well. *)
Theorem main_header_failure_not_terminal :
  (∃ h p1,
      readMainHeader 300
        (RawPacket (bufioNewReader
                      (LimitReader (NewReader (truncatedMainPayload ++ [x00; x00])) 2)) None)
      = Returns (h, Some EOF, p1))
  ∧ observe (ReadEvent 300 (NewDemuxer (NewReader truncatedMainStream)))
    = Returns (GotEvent (FrameEvent defaultFrame), NewReader [x00], None)
  ∧ observe (nthCall 300 1 (NewDemuxer (NewReader truncatedMainStream)))
    = Returns (GotEvent (FrameEvent defaultFrame), NewReader [], None).
Proof.
  split; [|split].
  - destruct (readMainHeader 300 _) as [[[h e] p1]| |] eqn:Hm.
    + exists h, p1.
      assert (He : e = Some EOF).
      { apply (f_equal (λ o, match o with Returns (_, e, _) => e | _ => None end)) in Hm.
        vm_compute in Hm. congruence. }
      rewrite He. reflexivity.
    + exfalso.
      apply (f_equal (λ o, match o with Returns _ => true | _ => false end)) in Hm.
      vm_compute in Hm. discriminate.
    + exfalso.
      apply (f_equal (λ o, match o with Returns _ => true | _ => false end)) in Hm.
      vm_compute in Hm. discriminate.
  - vm_compute. reflexivity.
  - vm_compute. reflexivity.
Qed.

(** ** Side data *)

Section side_data_facts.
Context {R : Type} `{Reader R}.

(** A value read by [readVarint] has magnitude at most [2^62]. *)
Lemma readVarint_bound (r r' : R) v e :
  readVarint r = (v, e, r') → - 2 ^ 62 ≤ v ≤ 2 ^ 62.
Proof.
  destruct (readUvarint r) as [[u e1] r1] eqn:Hu.
  destruct e1 as [err|].
  - unfold readVarint. rewrite Hu. intros [= <- _ _]. lia.
  - rewrite (readVarint_of_readUvarint _ _ _ Hu).
    pose proof (readUvarint_bound _ _ _ _ Hu) as Hv.
    assert (Hs : 0 ≤ Z.shiftr (u + 1) 1 ≤ 2 ^ 62).
    { rewrite Z.shiftr_div_pow2 by lia. change (2 ^ 1) with 2.
      split; [apply Z.div_pos; lia|]. apply Z.div_le_upper_bound; lia. }
    destruct (Z.odd (u + 1)); intros [= <- _ _]; lia.
Qed.

End side_data_facts.

Section side_data_packet.
Context {R : Type} `{Reader R}.

Lemma p_readVarint_bound (p p' : rawPacket R) v :
  p_readVarint p = (v, p') → - 2 ^ 62 ≤ v ≤ 2 ^ 62.
Proof.
  unfold p_readVarint. destruct (p_err p); [intros [= <- _]; lia|].
  destruct (readVarint (p_r p)) as [[i e] r1] eqn:Hi. intros [= <- _].
  exact (readVarint_bound _ _ _ _ Hi).
Qed.
End side_data_packet.

(** C7. A side-data entry is a name, a signed discriminator and a value
    chosen by the discriminator: -1 a text value in one length-prefixed
    block, -2 a generic value with a length-prefixed inner type and a
    length-prefixed raw value, -3 a signed integer, -4 an unsigned time
    value, below -4 a rational with denominator [-discriminator - 4] and a
    signed numerator, and from 0 on a placeholder that carries the name only
    and reads nothing more. *)
Theorem side_data_variants (R : Type) (RR : Reader R) (p p1 p2 : rawPacket R) name t :
  p_readVarBytes p = (name, p1) →
  p_readVarint p1 = (t, p2) →
  (t = -1 → readSideEntry p
            = let '(val, p3) := p_readVarBytes p2 in (sideUTF8 name val, p3))
  ∧ (t = -2 → readSideEntry p
              = let '(innerType, p3) := p_readVarBytes p2 in
                let '(val, p4) := p_readVarBytes p3 in
                (sideGeneric name innerType val, p4))
  ∧ (t = -3 → readSideEntry p
              = let '(val, p3) := p_readVarint p2 in (sideInt64 name val, p3))
  ∧ (t = -4 → readSideEntry p
              = let '(val, p3) := p_readUvarint p2 in (sideTime name val, p3))
  ∧ (t < -4 → readSideEntry p
              = let '(num, p3) := p_readVarint p2 in
                (sideRational name (- t - 4) num, p3))
  ∧ (0 ≤ t → readSideEntry p = (sideUint64 name 0, p2)).
Proof.
  intros Hname Ht. pose proof (p_readVarint_bound _ _ _ Ht) as Hrange.
  unfold readSideEntry, sbind. rewrite Hname, Ht.
  repeat split.
  - intros ->. reflexivity.
  - intros ->. reflexivity.
  - intros ->. reflexivity.
  - intros ->. reflexivity.
  - intros Hlt.
    destruct (Z.eqb_spec t (-1)); [lia|]. destruct (Z.eqb_spec t (-2)); [lia|].
    destruct (Z.eqb_spec t (-3)); [lia|]. destruct (Z.eqb_spec t (-4)); [lia|].
    destruct (Z.ltb_spec t (-4)); [|lia].
    rewrite (toInt64_small (- t)) by lia. rewrite toInt64_small by lia.
    reflexivity.
  - intros Hge.
    destruct (Z.eqb_spec t (-1)); [lia|]. destruct (Z.eqb_spec t (-2)); [lia|].
    destruct (Z.eqb_spec t (-3)); [lia|]. destruct (Z.eqb_spec t (-4)); [lia|].
    destruct (Z.ltb_spec t (-4)); [lia|]. reflexivity.
Qed.

(** ** The frame decoder against the order of the specification *)

Lemma sticks_sret {A} (a : A) : sticks (sret a).
Proof. intros d Hd. exact Hd. Qed.

Lemma sticks_sbind {A B} (m : stateM _ A) (k : A → stateM _ B) :
  sticks m → (∀ a, sticks (k a)) → sticks (sbind m k).
Proof.
  intros Hm Hk d Hd. unfold sbind. specialize (Hm d Hd).
  destruct (m d) as [a d1]. apply Hk, Hm.
Qed.

Lemma sticks_swhen {A} c (m : stateM _ A) x : sticks m → sticks (swhen c m x).
Proof. intros Hm. destruct c; [exact Hm|apply sticks_sret]. Qed.

Lemma sticks_srepeat {A} n (m : stateM _ A) : sticks m → sticks (srepeat n m).
Proof.
  intros Hm. induction n as [|n IH]; simpl; [apply sticks_sret|].
  apply sticks_sbind; auto.
Qed.

Lemma sticks_d_readUvarint : sticks d_readUvarint.
Proof.
  intros d Hd. unfold d_readUvarint. destruct (d_err d) eqn:He; [|congruence].
  simpl. congruence.
Qed.

Lemma sticks_d_readVarint : sticks d_readVarint.
Proof.
  intros d Hd. unfold d_readVarint. destruct (d_err d) eqn:He; [|congruence].
  simpl. congruence.
Qed.

Lemma agree_sret {A} (a : A) : agree (sret a) (λ s, Some (a, s)).
Proof. intros d Hd. unfold sret, set_r. destruct d as [[s] mh e o]. reflexivity. Qed.

Lemma agree_sbind {A B} (m : stateM _ A) dec (k : A → stateM _ B) kdec :
  agree m dec → (∀ a, sticks (k a)) → (∀ a, agree (k a) (kdec a)) →
  agree (sbind m k) (λ s, thenField (dec s) kdec).
Proof.
  intros Hm Hs Hk d Hd. unfold sbind, thenField. specialize (Hm d Hd).
  destruct (dec (unread (d_r d))) as [[a s]|].
  - rewrite Hm. specialize (Hk a (set_r d (NewReader s)) Hd). simpl in Hk.
    destruct (kdec a s) as [[b s']|]; exact Hk.
  - destruct (m d) as [a d1]. apply Hs, Hm.
Qed.

Lemma agree_swhen {A} c (m : stateM _ A) dec x :
  agree m dec → agree (swhen c m x) (optField c dec x).
Proof. intros Hm. destruct c; [exact Hm|apply agree_sret]. Qed.

Lemma agree_d_readUvarint : agree d_readUvarint decodeUnsigned.
Proof.
  intros d Hd. destruct d as [[s] mh e o]. simpl in Hd. subst e.
  unfold d_readUvarint, decodeUnsigned. simpl.
  destruct (readUvarint (NewReader s)) as [[u e1] [s1]].
  destruct e1; simpl; [discriminate|reflexivity].
Qed.

Lemma agree_d_readVarint : agree d_readVarint decodeSigned.
Proof.
  intros d Hd. destruct d as [[s] mh e o]. simpl in Hd. subst e.
  unfold d_readVarint, decodeSigned. simpl.
  destruct (readVarint (NewReader s)) as [[u e1] [s1]].
  destruct e1; simpl; [discriminate|reflexivity].
Qed.

Lemma agree_skip n : agree (srepeat n d_readUvarint) (skipUnsigned n).
Proof.
  induction n as [|n IH]; [apply agree_sret|].
  intros d Hd. cbn [srepeat skipUnsigned].
  pose proof (agree_sbind d_readUvarint decodeUnsigned
                (λ _, srepeat n d_readUvarint) (λ _, skipUnsigned n)
                agree_d_readUvarint
                (λ _, sticks_srepeat n _ sticks_d_readUvarint)
                (λ _, IH) d Hd) as Hb.
  unfold thenField in Hb.
  destruct (decodeUnsigned (unread (d_r d))) as [[v s]|]; exact Hb.
Qed.

Local Ltac stick :=
  repeat first
    [ apply sticks_d_readUvarint
    | apply sticks_d_readVarint
    | apply sticks_swhen
    | apply sticks_srepeat
    | apply sticks_sret
    | (apply sticks_sbind; [|intros ?]) ].

Lemma sticks_readFrameFields meta : sticks (readFrameFields meta).
Proof. unfold readFrameFields. stick. Qed.

Lemma agree_readFrameFields meta : agree (readFrameFields meta) (frameFieldsSpec meta).
Proof.
  unfold readFrameFields, frameFieldsSpec.
  apply agree_sbind;
    [apply agree_swhen, agree_d_readUvarint|intros codedFlags; stick|intros codedFlags].
  cbv zeta.
  apply agree_sbind;
    [apply agree_swhen, agree_d_readUvarint|intros sid; stick|intros sid].
  apply agree_sbind;
    [apply agree_swhen, agree_d_readUvarint|intros pts; stick|intros pts].
  apply agree_sbind;
    [apply agree_swhen, agree_d_readUvarint|intros msb; stick|intros msb].
  apply agree_sbind;
    [apply agree_swhen, agree_d_readVarint|intros mtd; stick|intros mtd].
  apply agree_sbind;
    [apply agree_swhen, agree_d_readUvarint|intros hidx; stick|intros hidx].
  apply agree_sbind;
    [apply agree_swhen, agree_d_readUvarint|intros res; stick|intros res].
  apply agree_sbind; [apply agree_skip|intros u; stick|intros u].
  apply agree_sret.
Qed.

(** The frame decoder and the decoder in the order of the specification
    succeed together, with the same frame and the same rest. *)
Lemma frame_decoding_order_aux (d : Demuxer bytesReader) code h meta f rest :
  d_err d = None →
  Frames h !! Z.to_nat (byteZ code) = Some meta →
  frameSpec meta (unread (d_r d)) = Some (f, rest)
  ↔ readFrame code (Some h) d = Returns (inl f, set_r d (NewReader rest)).
Proof.
  intros Hd Hmeta. unfold readFrame, frameSpec. rewrite Hd, Hmeta.
  pose proof (agree_readFrameFields meta d Hd) as Hag.
  destruct (frameFieldsSpec meta (unread (d_r d))) as [[[[fl size] f0] s8]|];
    cbn [thenField].
  - rewrite Hag. destruct (hasFlag fl flagChecksum).
    + cbn [d_r set_r]. rewrite ReadFull_bytes. unfold takeBytes.
      destruct (4 <=? length s8)%nat; cbn [thenField].
      * cbn [d_r set_r]. rewrite ReadFull_bytes.
        destruct (Z.to_nat size <=? length (drop 4 s8))%nat; cbn [thenField].
        -- unfold set_r; simpl. split; intros [= <- <-]; reflexivity.
        -- split; intros [=].
      * split; intros [=].
    + cbn [d_r set_r thenField]. rewrite ReadFull_bytes. unfold takeBytes.
      destruct (Z.to_nat size <=? length s8)%nat; cbn [thenField].
      * unfold set_r; simpl. split; intros [= <- <-]; reflexivity.
      * split; intros [=].
  - split; [intros [=]|]. intros Hret. exfalso.
    destruct (readFrameFields meta d) as [[[fl size] f0] d1]. simpl in Hag.
    apply (f_equal (λ o, match o with
                         | Returns (_, d') => d_err d'
                         | _ => None
                         end)) in Hret.
    simpl in Hret. rewrite Hd in Hret.
    destruct (hasFlag fl flagChecksum).
    + destruct (ReadFull 4 (d_r d1)) as [[cs e] r1].
      destruct e as [err|]; [simpl in Hret; discriminate|].
      destruct (ReadFull (Z.to_nat size) (d_r (set_r d1 r1))) as [[bs e] r2].
      destruct e as [err|]; simpl in Hret; congruence.
    + destruct (ReadFull (Z.to_nat size) (d_r d1)) as [[bs e] r2].
      destruct e as [err|]; simpl in Hret; congruence.
Qed.

(** C5. On an in-memory source and with no error recorded, the frame
    decoder returns a frame and leaves the rest of the source exactly when
    decoding in the order of the specification succeeds with that frame and
    that rest: coded flags XORed into the flags of the table entry, then
    under their flags stream id (else the default of the table), coded PTS,
    size MSB with the payload size [lsb + mul * msb] in 64-bit arithmetic,
    match-time delta, header index, reserved count and that many dropped
    varints, four dropped checksum bytes, and last exactly [size] bytes of
    payload. *)
Theorem frame_decoding_order (d : Demuxer bytesReader) code h meta f rest :
  d_err d = None →
  Frames h !! Z.to_nat (byteZ code) = Some meta →
  frameSpec meta (unread (d_r d)) = Some (f, rest)
  ↔ readFrame code (Some h) d = Returns (inl f, set_r d (NewReader rest)).
Proof. apply frame_decoding_order_aux. Qed.

(** ** What a packet takes from the source *)

Section respects_facts.
Context {S : Type} (rel : S → S → Prop) `{!PreOrder rel}.

Lemma respects_sret {A} (a : A) : respects rel (sret a).
Proof. intros s a' s' [= _ <-]. reflexivity. Qed.

Lemma respects_sbind {A B} (m : stateM S A) (k : A → stateM S B) :
  respects rel m → (∀ a, respects rel (k a)) → respects rel (sbind m k).
Proof.
  intros Hm Hk s b s'. unfold sbind. destruct (m s) as [a s1] eqn:Hms.
  intros Hks. transitivity s1; [eapply Hm, Hms|eapply Hk, Hks].
Qed.

Lemma respects_swhen {A} c (m : stateM S A) x :
  respects rel m → respects rel (swhen c m x).
Proof. intros Hm. destruct c; [exact Hm|apply respects_sret]. Qed.

Lemma respects_srepeat {A} n (m : stateM S A) :
  respects rel m → respects rel (srepeat n m).
Proof.
  intros Hm. induction n as [|n IH]; simpl; [apply respects_sret|].
  apply respects_sbind; auto.
Qed.

Lemma respects_scollect {A} n (m : stateM S A) :
  respects rel m → respects rel (scollect n m).
Proof.
  intros Hm. induction n as [|n IH]; simpl; [apply respects_sret|].
  apply respects_sbind; [exact Hm|intros a].
  apply respects_sbind; [exact IH|intros l]. apply respects_sret.
Qed.
End respects_facts.

Lemma consumed_refl l : consumed 0 l l.
Proof.
  unfold consumed. rewrite drop_0. repeat split; try lia; auto.
Qed.

Lemma consumed_trans j1 j2 l1 l2 l3 :
  consumed j1 l1 l2 → consumed j2 l2 l3 → consumed (j1 + j2) l1 l3.
Proof.
  intros (Hn1 & Hs1 & Hl1 & Hb1) (Hn2 & Hs2 & Hl2 & Hb2).
  rewrite Hs1, length_drop in Hl2.
  unfold consumed. rewrite Hn2, Hn1, Hs2, Hs1, drop_drop.
  repeat split; try lia.
Qed.

#[export] Instance advances_preorder : PreOrder advances.
Proof.
  split.
  - intros l. exists 0%nat. apply consumed_refl.
  - intros l1 l2 l3 [j1 H1] [j2 H2]. exists (j1 + j2)%nat.
    eapply consumed_trans; eassumption.
Qed.

#[export] Instance packetAdvances_preorder : PreOrder packetAdvances.
Proof.
  split.
  - intros p. unfold packetAdvances. reflexivity.
  - intros p1 p2 p3. unfold packetAdvances. intros H1 H2. etransitivity; eassumption.
Qed.

(** An exhausted allowance: nothing more is taken. *)
Lemma advances_exhausted l l' : LN l ≤ 0 → advances l l' → l' = l.
Proof.
  intros Hn (j & Hn' & Hs & Hl & Hb).
  assert (j = 0%nat) as -> by lia.
  destruct l as [[s] n], l' as [[s'] n']. simpl in *.
  rewrite drop_0 in Hs. subst s'. f_equal. lia.
Qed.

Lemma drop_length_take {A} n (s : list A) : drop (length (take n s)) s = drop n s.
Proof.
  rewrite length_take. destruct (Nat.min_spec n (length s)) as [[? ->]|[? ->]];
    [reflexivity|]. rewrite !drop_ge by lia. reflexivity.
Qed.

Lemma LimitedReader_Read_consumed n (l l' : LimitedReader bytesReader) bs e :
  Read n l = (bs, e, l') → consumed (length bs) l l'.
Proof.
  unfold Read, LimitedReader_Reader, LimitedReader_Read.
  destruct (Z.leb_spec (LN l) 0) as [Hle|Hgt].
  { intros [= <- _ <-]. apply consumed_refl. }
  unfold Read, bytesReader_Reader, bytesReader_Read.
  destruct (unread (LR l)) as [|b s] eqn:Hs.
  { intros [= <- _ <-]. unfold consumed. simpl. rewrite Hs.
    repeat split; try lia; auto. }
  intros [= <- _ <-]. unfold consumed. cbn [LN LR unread]. rewrite Hs.
  rewrite drop_length_take. split; [reflexivity|]. split; [reflexivity|].
  rewrite length_take. split; [lia|]. right.
  destruct (Z.ltb_spec (LN l) (Z.of_nat n)); lia.
Qed.

(** A relation that every [Read] respects is respected by everything that
    reads. *)
Section reads_respect.
Context {R : Type} `{Reader R} (rel : R → R → Prop) `{!PreOrder rel}.
Hypothesis Read_rel : ∀ n r bs e r', Read n r = (bs, e, r') → rel r r'.

Lemma readLoop_rel fuel : ∀ rem r bs e r',
  readLoop fuel rem r = (bs, e, r') → rel r r'.
Proof.
  induction fuel as [|fuel IH]; intros rem r bs e r'.
  - destruct rem; simpl; intros [= _ _ <-]; reflexivity.
  - destruct rem as [|rem]; [simpl; intros [= _ _ <-]; reflexivity|].
    cbn [readLoop]. destruct (Read (S rem) r) as [[bs1 e1] r1] eqn:Hr.
    apply Read_rel in Hr. destruct e1 as [err|]; [intros [= _ _ <-]; exact Hr|].
    destruct (readLoop fuel _ r1) as [[bs2 e2] r2] eqn:Hl. apply IH in Hl.
    intros [= _ _ <-]. etransitivity; eassumption.
Qed.

Lemma ReadFull_rel n r bs e r' : ReadFull n r = (bs, e, r') → rel r r'.
Proof.
  unfold ReadFull. destruct (readLoop n n r) as [[bs1 e1] r1] eqn:Hl.
  apply readLoop_rel in Hl.
  destruct (n <=? length bs1)%nat; [intros [= _ _ <-]; exact Hl|].
  destruct e1 as [[]|]; try (intros [= _ _ <-]; exact Hl).
  destruct (0 <? length bs1)%nat; intros [= _ _ <-]; exact Hl.
Qed.

Lemma uvarintLoop_rel i : ∀ x r v e r',
  uvarintLoop i x r = (v, e, r') → rel r r'.
Proof.
  induction i as [|i IH]; intros x r v e r'; simpl.
  - intros [= _ _ <-]. reflexivity.
  - destruct (ReadFull 1 r) as [[b e1] r1] eqn:Hr. apply ReadFull_rel in Hr.
    destruct e1 as [err|]; [intros [= _ _ <-]; exact Hr|].
    destruct (byteZ (hd x00 b) <? 0x80); [intros [= _ _ <-]; exact Hr|].
    intros Hl. apply IH in Hl. etransitivity; eassumption.
Qed.

Lemma readUvarint_rel r v e r' : readUvarint r = (v, e, r') → rel r r'.
Proof. apply uvarintLoop_rel. Qed.

Lemma readVarint_rel r v e r' : readVarint r = (v, e, r') → rel r r'.
Proof.
  unfold readVarint. destruct (readUvarint r) as [[u e1] r1] eqn:Hr.
  apply readUvarint_rel in Hr. destruct e1 as [err|]; [intros [= _ _ <-]; exact Hr|].
  destruct (negb _); intros [= _ _ <-]; exact Hr.
Qed.
End reads_respect.

#[export] Instance bufioAdvances_preorder : PreOrder bufioAdvances.
Proof.
  split.
  - intros b. unfold bufioAdvances. reflexivity.
  - intros b1 b2 b3. unfold bufioAdvances. intros H1 H2. etransitivity; eassumption.
Qed.

Lemma bufio_Read_advances n (b : bufioReader (LimitedReader bytesReader)) bs e b' :
  Read n b = (bs, e, b') → bufioAdvances b b'.
Proof.
  unfold Read at 1, bufioReader_Reader, bufio_Read, bufioAdvances.
  destruct n as [|n].
  { destruct (buffered b); intros [= _ _ <-]; reflexivity. }
  destruct (buffered b) as [|x xs]; [|intros [= _ _ <-]; reflexivity].
  destruct (berr b); [intros [= _ _ <-]; reflexivity|].
  destruct (defaultBufSize <=? S n)%nat.
  - destruct (Read (S n) (rd b)) as [[bs1 e1] r1] eqn:Hr.
    apply LimitedReader_Read_consumed in Hr. intros [= _ _ <-]. eexists; exact Hr.
  - destruct (Read defaultBufSize (rd b)) as [[bs1 e1] r1] eqn:Hr.
    apply LimitedReader_Read_consumed in Hr.
    destruct bs1; intros [= _ _ <-]; eexists; exact Hr.
Qed.

Section packet_advances.
Lemma p_readUvarint_advances : respects packetAdvances p_readUvarint.
Proof.
  intros p v p'. unfold p_readUvarint.
  destruct (p_err p); [intros [= _ <-]; reflexivity|].
  destruct (readUvarint (p_r p)) as [[u e] r1] eqn:Hr. intros [= _ <-].
  exact (readUvarint_rel bufioAdvances bufio_Read_advances _ _ _ _ Hr).
Qed.

Lemma p_readVarint_advances : respects packetAdvances p_readVarint.
Proof.
  intros p v p'. unfold p_readVarint.
  destruct (p_err p); [intros [= _ <-]; reflexivity|].
  destruct (readVarint (p_r p)) as [[u e] r1] eqn:Hr. intros [= _ <-].
  exact (readVarint_rel bufioAdvances bufio_Read_advances _ _ _ _ Hr).
Qed.

Lemma p_readVarBytes_advances : respects packetAdvances p_readVarBytes.
Proof.
  intros p v p'. unfold p_readVarBytes.
  destruct (p_err p); [intros [= _ <-]; reflexivity|].
  destruct (readUvarint (p_r p)) as [[u e] r1] eqn:Hr.
  destruct (ReadFull _ r1) as [[bs e2] r2] eqn:Hf. intros [= _ <-].
  pose proof (readUvarint_rel bufioAdvances bufio_Read_advances _ _ _ _ Hr) as H1.
  pose proof (ReadFull_rel bufioAdvances bufio_Read_advances _ _ _ _ _ Hf) as H2.
  unfold packetAdvances. simpl. etransitivity; eassumption.
Qed.
End packet_advances.

Local Ltac adv :=
  repeat first
    [ apply p_readUvarint_advances
    | apply p_readVarint_advances
    | apply p_readVarBytes_advances
    | apply (respects_swhen packetAdvances)
    | apply (respects_srepeat packetAdvances)
    | apply (respects_scollect packetAdvances)
    | apply (respects_sret packetAdvances)
    | (apply (respects_sbind packetAdvances); [|intros ?])
    | match goal with
      | |- respects _ (if ?c then _ else _) => destruct c
      end ].

Section decoders_advance.
Lemma readTableRun_advances v : respects packetAdvances (readTableRun v).
Proof. unfold readTableRun. adv. Qed.

Lemma readMainFields_advances : respects packetAdvances readMainFields.
Proof. unfold readMainFields. adv. Qed.

Lemma readMainTail_advances : respects packetAdvances readMainTail.
Proof. unfold readMainTail. adv. Qed.

Lemma frameTableLoop_advances fuel : ∀ i v tbl (p : rawPacket bytesReader) tbl' p',
  frameTableLoop fuel i v tbl p = Returns (tbl', p') → packetAdvances p p'.
Proof.
  induction fuel as [|fuel IH]; intros i v tbl p tbl' p'.
  - rewrite frameTableLoop_O. destruct (i <? 256)%nat; [discriminate|].
    intros [= _ <-]. reflexivity.
  - rewrite frameTableLoop_S. destruct (i <? 256)%nat.
    2:{ intros [= _ <-]. reflexivity. }
    destruct (readTableRun v p) as [run p1] eqn:Hrun.
    apply readTableRun_advances in Hrun.
    destruct (fillLoop fillFuel run 0 i tbl) as [[i1 tbl1]| |]; try discriminate.
    intros Hloop. apply IH in Hloop. etransitivity; eassumption.
Qed.

Lemma readMainHeader_advances fuel (p p' : rawPacket bytesReader) h e :
  readMainHeader fuel p = Returns (h, e, p') → packetAdvances p p'.
Proof.
  unfold readMainHeader. destruct (p_err p); [intros [= _ _ <-]; reflexivity|].
  destruct (readMainFields p) as [[[[[version minor] sc] md] tbs] p1] eqn:Hf.
  apply readMainFields_advances in Hf.
  destruct (frameTableLoop _ _ _ _ p1) as [[tbl p2]| |] eqn:Hl; try discriminate.
  apply frameTableLoop_advances in Hl.
  destruct (readMainTail p2) as [hflags p3] eqn:Ht.
  apply readMainTail_advances in Ht. intros [= _ _ <-].
  etransitivity; [exact Hf|]. etransitivity; eassumption.
Qed.

Lemma readStreamHeader_advances (p p' : rawPacket bytesReader) h e :
  readStreamHeader p = (h, e, p') → packetAdvances p p'.
Proof.
  unfold readStreamHeader. destruct (p_err p); [intros [= _ _ <-]; reflexivity|].
  match goal with
  | |- context [let '(_, _) := ?m p in _] =>
    assert (Hm : respects packetAdvances m) by adv;
      destruct (m p) as [h1 p1] eqn:Hrun
  end.
  apply Hm in Hrun. intros [= _ _ <-]. exact Hrun.
Qed.

Lemma readSideEntry_advances : respects packetAdvances readSideEntry.
Proof. unfold readSideEntry. adv. Qed.

Lemma readSideData_advances : respects packetAdvances readSideData.
Proof.
  intros p l p'. unfold readSideData.
  destruct (p_err p); [intros [= _ <-]; reflexivity|].
  revert p l p'.
  change (respects packetAdvances
            (count <- p_readUvarint ;; scollect (Z.to_nat count) readSideEntry)).
  apply (respects_sbind packetAdvances); [apply p_readUvarint_advances|intros count].
  apply (respects_scollect packetAdvances), readSideEntry_advances.
Qed.

Lemma readInfoPacket_advances (p p' : rawPacket bytesReader) i e :
  readInfoPacket p = (i, e, p') → packetAdvances p p'.
Proof.
  unfold readInfoPacket. destruct (p_err p); [intros [= _ _ <-]; reflexivity|].
  match goal with
  | |- context [let '(_, _) := ?m p in _] =>
    assert (Hm : respects packetAdvances m);
      [|destruct (m p) as [h1 p1] eqn:Hrun]
  end.
  { do 4 (apply (respects_sbind packetAdvances); [adv|intros ?]).
    apply (respects_sbind packetAdvances); [apply readSideData_advances|intros ?].
    adv. }
  apply Hm in Hrun. intros [= _ _ <-]. exact Hrun.
Qed.

Lemma readSyncPoint_advances (p p' : rawPacket bytesReader) s e :
  readSyncPoint p = (s, e, p') → packetAdvances p p'.
Proof.
  unfold readSyncPoint. destruct (p_err p); [intros [= _ _ <-]; reflexivity|].
  match goal with
  | |- context [let '(_, _) := ?m p in _] =>
    assert (Hm : respects packetAdvances m) by adv;
      destruct (m p) as [h1 p1] eqn:Hrun
  end.
  apply Hm in Hrun. intros [= _ _ <-]. exact Hrun.
Qed.
End decoders_advance.

(** The first read of a fresh packet fetches the whole payload when it is
    there and no longer than the buffer. *)
Lemma first_Read src s :
  1 ≤ s ≤ 4096 → (Z.to_nat s ≤ length src)%nat →
  Read 1 (bufioNewReader (LimitReader (NewReader src) s))
  = (take 1 (take (Z.to_nat s) src), None,
     BufioReader (LimitReader (NewReader (drop (Z.to_nat s) src)) 0)
                 (drop 1 (take (Z.to_nat s) src)) None).
Proof.
  intros Hs Hlen.
  unfold Read at 1, bufioReader_Reader, bufio_Read, bufioNewReader.
  cbn [buffered berr rd]. change (defaultBufSize <=? 1)%nat with false. cbv iota.
  unfold Read, LimitedReader_Reader, LimitedReader_Read. cbn [LN LR].
  destruct (Z.leb_spec s 0); [lia|].
  unfold Read, bytesReader_Reader, bytesReader_Read. cbn [unread].
  destruct src as [|b src]; [simpl in Hlen; lia|].
  assert (Hn : (if s <? Z.of_nat defaultBufSize then Z.to_nat s else defaultBufSize)
               = Z.to_nat s).
  { unfold defaultBufSize. destruct (Z.ltb_spec s (Z.of_nat 4096)); lia. }
  rewrite Hn.
  assert (Hnz : take (Z.to_nat s) (b :: src) = b :: take (Z.to_nat s - 1) src).
  { destruct (Z.to_nat s) as [|k] eqn:Hk; [lia|]. simpl. rewrite Nat.sub_0_r.
    reflexivity. }
  rewrite Hnz at 1. cbv iota. rewrite length_take, Nat.min_l by lia.
  rewrite Z2Nat.id by lia. rewrite Z.sub_diag. reflexivity.
Qed.

Lemma first_ReadFull src s :
  1 ≤ s ≤ 4096 → (Z.to_nat s ≤ length src)%nat →
  ∃ bs b1, ReadFull 1 (bufioNewReader (LimitReader (NewReader src) s)) = (bs, None, b1)
           ∧ rd b1 = LimitReader (NewReader (drop (Z.to_nat s) src)) 0.
Proof.
  intros Hs Hlen. unfold ReadFull. cbn [readLoop].
  rewrite (first_Read src s Hs Hlen).
  assert (Hl : length (take 1 (take (Z.to_nat s) src)) = 1%nat).
  { rewrite !length_take. lia. }
  rewrite Hl. cbn [Nat.sub readLoop]. rewrite app_nil_r, Hl. simpl Nat.leb. cbv iota.
  eexists _, _. split; reflexivity.
Qed.

Lemma uvarintLoop_S {R} `{Reader R} i x (r : R) :
  uvarintLoop (S i) x r
  = let '(b, e, r1) := ReadFull 1 r in
    match e with
    | Some _ => (x, e, r1)
    | None =>
      let b0 := hd x00 b in
      let x1 := wrap64 (Z.lor (Z.shiftl x 7) (Z.land (byteZ b0) 0x7f)) in
      if byteZ b0 <? 0x80 then (x1, None, r1) else uvarintLoop i x1 r1
    end.
Proof. reflexivity. Qed.

(** After its first varint a packet with a small payload has taken exactly
    the payload from the source. *)
Lemma first_p_readUvarint src s v p' :
  1 ≤ s ≤ 4096 → (Z.to_nat s ≤ length src)%nat →
  p_readUvarint (RawPacket (bufioNewReader (LimitReader (NewReader src) s)) None) = (v, p') →
  rd (p_r p') = LimitReader (NewReader (drop (Z.to_nat s) src)) 0.
Proof.
  intros Hs Hlen. unfold p_readUvarint. cbn [p_err p_r].
  unfold readUvarint. rewrite uvarintLoop_S.
  destruct (first_ReadFull src s Hs Hlen) as (bs & b1 & -> & Hb1).
  cbv zeta.
  destruct (byteZ (hd x00 bs) <? 0x80); [intros [= _ <-]; exact Hb1|].
  destruct (uvarintLoop 8 _ b1) as [[u e] r1] eqn:Hloop.
  apply (uvarintLoop_rel bufioAdvances bufio_Read_advances) in Hloop.
  intros [= _ <-]. cbn [p_r]. rewrite <- Hb1.
  apply advances_exhausted; [rewrite Hb1; simpl; lia|exact Hloop].
Qed.

(** The same for any decoder that starts with a varint. *)
Lemma first_varint_exhausts {A} (k : Z → stateM (rawPacket bytesReader) A) src s a p' :
  (∀ x, respects packetAdvances (k x)) →
  1 ≤ s ≤ 4096 → (Z.to_nat s ≤ length src)%nat →
  sbind p_readUvarint k
        (RawPacket (bufioNewReader (LimitReader (NewReader src) s)) None) = (a, p') →
  rd (p_r p') = LimitReader (NewReader (drop (Z.to_nat s) src)) 0.
Proof.
  intros Hk Hs Hlen. unfold sbind.
  destruct (p_readUvarint _) as [v p1] eqn:H1.
  apply first_p_readUvarint in H1; [|assumption..].
  intros Hrun. apply Hk in Hrun. unfold packetAdvances in Hrun.
  rewrite <- H1. apply advances_exhausted; [rewrite H1; simpl; lia|exact Hrun].
Qed.

Lemma exhausted_stays (p p' : rawPacket bytesReader) l :
  rd (p_r p) = l → LN l ≤ 0 → packetAdvances p p' → rd (p_r p') = l.
Proof.
  intros <- Hn Hadv. apply advances_exhausted; assumption.
Qed.

Section small_packets.
Variables (src : list byte) (s : Z).
Hypothesis Hs : 1 ≤ s ≤ 4096.
Hypothesis Hlen : (Z.to_nat s ≤ length src)%nat.

Lemma readSyncPoint_exhausts x e p' :
  readSyncPoint (packetOver src s) = (x, e, p') → rd (p_r p') = spentReader src s.
Proof.
  unfold readSyncPoint. unfold packetOver, spentReader. cbn [p_err].
  match goal with
  | |- context [let '(_, _) := sbind p_readUvarint ?k ?p in _] =>
    destruct (sbind p_readUvarint k p) as [a p1] eqn:Hrun;
      apply first_varint_exhausts in Hrun; [|intros ?; adv|assumption..]
  end.
  intros [= _ _ <-]. exact Hrun.
Qed.

Lemma readStreamHeader_exhausts x e p' :
  readStreamHeader (packetOver src s) = (x, e, p') → rd (p_r p') = spentReader src s.
Proof.
  unfold readStreamHeader. unfold packetOver, spentReader. cbn [p_err].
  match goal with
  | |- context [let '(_, _) := sbind p_readUvarint ?k ?p in _] =>
    destruct (sbind p_readUvarint k p) as [a p1] eqn:Hrun;
      apply first_varint_exhausts in Hrun; [|intros ?; adv|assumption..]
  end.
  intros [= _ _ <-]. exact Hrun.
Qed.

Lemma readInfoPacket_exhausts x e p' :
  readInfoPacket (packetOver src s) = (x, e, p') → rd (p_r p') = spentReader src s.
Proof.
  unfold readInfoPacket. unfold packetOver, spentReader. cbn [p_err].
  match goal with
  | |- context [let '(_, _) := sbind p_readUvarint ?k ?p in _] =>
    destruct (sbind p_readUvarint k p) as [a p1] eqn:Hrun;
      apply first_varint_exhausts in Hrun; [|intros ?|assumption..]
  end.
  2:{ do 3 (apply (respects_sbind packetAdvances); [adv|intros ?]).
      apply (respects_sbind packetAdvances); [apply readSideData_advances|intros ?].
      adv. }
  intros [= _ _ <-]. exact Hrun.
Qed.

Lemma readMainHeader_exhausts fuel h e p' :
  readMainHeader fuel (packetOver src s) = Returns (h, e, p') → rd (p_r p') = spentReader src s.
Proof.
  unfold readMainHeader. unfold packetOver, spentReader. cbn [p_err].
  destruct (readMainFields _) as [[[[[version minor] sc] md] tbs] p1] eqn:Hf.
  unfold readMainFields in Hf.
  apply first_varint_exhausts in Hf; [|intros ?; adv|assumption..].
  destruct (frameTableLoop _ _ _ _ p1) as [[tbl p2]| |] eqn:Hl; try discriminate.
  apply frameTableLoop_advances in Hl.
  destruct (readMainTail p2) as [hflags p3] eqn:Ht.
  apply readMainTail_advances in Ht. intros [= _ _ <-].
  eapply exhausted_stays; [| |exact Ht]; [|simpl; lia].
  eapply exhausted_stays; [exact Hf|simpl; lia|exact Hl].
Qed.
End small_packets.

Section packet_header_facts.
Context {R : Type} `{Reader R}.

Lemma readPacketHeader_size (d d2 : Demuxer R) hdr :
  readPacketHeader d = (hdr, None, d2) → 0 ≤ packetSize hdr < 2 ^ 63.
Proof.
  unfold readPacketHeader.
  destruct (ReadFull 7 (d_r d)) as [[bs e1] r1].
  destruct e1 as [err|]; [intros [=]|].
  destruct (readUvarint (d_r (set_r d r1))) as [[size e2] r2] eqn:Hu.
  apply readUvarint_bound in Hu.
  destruct e2 as [err|]; [intros [=]|].
  destruct (4096 <? size).
  - destruct (ReadFull 4 _) as [[cs e3] r3].
    destruct e3 as [err|]; intros [= <- _ _]; exact Hu.
  - intros [= <- _]. exact Hu.
Qed.

Lemma iteration_packet fuel (d d2 : Demuxer R) r1 hdr :
  d_err d = None →
  ReadFull 1 (d_r d) = ([x4e], None, r1) →
  readPacketHeader (set_r d r1) = (hdr, None, d2) →
  iteration fuel d = dispatch fuel d2 hdr.
Proof.
  intros He Hb Hph. unfold iteration. rewrite He, Hb. simpl hd.
  change (Byte.eqb x4e x4e) with true. cbv iota. rewrite Hph. reflexivity.
Qed.
End packet_header_facts.

(** What [dispatch] leaves of an in-memory source. *)
Lemma dispatch_advances fuel (d2 : Demuxer bytesReader) hdr st :
  dispatch fuel d2 hdr = Returns st →
  advances (LimitReader (d_r d2) (toInt64 (packetSize hdr)))
           (LimitReader (d_r (stepState st))
                        (toInt64 (packetSize hdr)
                         - Z.of_nat (length (unread (d_r d2))
                                     - length (unread (d_r (stepState st)))))).
Proof.
  assert (Hpk : ∀ p1 : rawPacket bytesReader,
             packetAdvances (newPacket d2 hdr) p1 →
             advances (LimitReader (d_r d2) (toInt64 (packetSize hdr)))
                      (LimitReader (LR (rd (p_r p1)))
                                   (toInt64 (packetSize hdr)
                                    - Z.of_nat (length (unread (d_r d2))
                                                - length (unread (LR (rd (p_r p1)))))))).
  { intros p1 (j & Hn & Hsrc & Hl & Hb). simpl in Hn, Hsrc, Hl, Hb.
    exists j. unfold consumed. cbn [LN LR]. rewrite Hsrc, length_drop.
    replace (length (unread (d_r d2)) - (length (unread (d_r d2)) - j))%nat
      with j by lia.
    repeat split; auto. }
  assert (Hsame : advances (LimitReader (d_r d2) (toInt64 (packetSize hdr)))
                           (LimitReader (d_r d2)
                                        (toInt64 (packetSize hdr)
                                         - Z.of_nat (length (unread (d_r d2))
                                                     - length (unread (d_r d2)))))).
  { exists 0%nat. unfold consumed. cbn [LN LR]. rewrite Nat.sub_diag, drop_0.
    repeat split; auto; lia. }
  unfold dispatch.
  destruct (bytesEqb (code hdr) mainStartCode).
  { destruct (d_mainHeader d2); [intros [= <-]; exact Hsame|].
    destruct (readMainHeader fuel _) as [[[h e] p1]| |] eqn:Hm; try discriminate.
    apply readMainHeader_advances in Hm. intros [= <-]. apply Hpk, Hm. }
  destruct (bytesEqb (code hdr) streamStartCode).
  { destruct (readStreamHeader _) as [[h e] p1] eqn:Hm.
    apply readStreamHeader_advances in Hm.
    destruct e as [err|]; [intros [= <-]; apply Hpk, Hm|].
    destruct h as [h|]; [|discriminate].
    destruct (streamClass h =? VideoClass); [intros [= <-]; apply Hpk, Hm|].
    destruct (streamClass h =? AudioClass); intros [= <-]; apply Hpk, Hm. }
  destruct (bytesEqb (code hdr) infoStartCode).
  { destruct (readInfoPacket _) as [[i e] p1] eqn:Hm.
    apply readInfoPacket_advances in Hm.
    destruct e as [err|]; intros [= <-]; apply Hpk, Hm. }
  destruct (bytesEqb (code hdr) syncpointStartCode).
  { destruct (readSyncPoint _) as [[i e] p1] eqn:Hm.
    apply readSyncPoint_advances in Hm.
    destruct e as [err|]; intros [= <-]; apply Hpk, Hm. }
  destruct (bytesEqb (code hdr) indexStartCode); intros [= <-]; exact Hsame.
Qed.

(** C3 (as the code has it). The payload view of a start-code packet of
    size [s] is bounded by [s]: whatever the packet decoder does, the source
    loses at most [s] bytes, all from its front.  What the decoder leaves
    unread is dropped only as far as the buffered reader had fetched it: an
    index packet, whose decoder reads nothing, takes nothing from the source;
    a main-header, stream, info or sync-point packet of at most 4096 bytes
    whose payload is there takes exactly its [s] payload bytes. *)
Theorem payload_view_bounded fuel (d d2 : Demuxer bytesReader) r1 hdr st :
  d_err d = None →
  ReadFull 1 (d_r d) = ([x4e], None, r1) →
  readPacketHeader (set_r d r1) = (hdr, None, d2) →
  iteration fuel d = Returns st →
  let src := unread (d_r d2) in
  let s := packetSize hdr in
  let src' := unread (d_r (stepState st)) in
  (∃ j, src' = drop j src ∧ Z.of_nat j ≤ s)
  ∧ (code hdr = indexStartCode → src' = src)
  ∧ ((code hdr = mainStartCode ∧ d_mainHeader d = None)
     ∨ code hdr = streamStartCode ∨ code hdr = infoStartCode
     ∨ code hdr = syncpointStartCode →
     s ≤ 4096 → (Z.to_nat s ≤ length src)%nat →
     src' = drop (Z.to_nat s) src).
Proof.
  intros He Hb Hph Hit src s src'.
  pose proof (readPacketHeader_size _ _ _ Hph) as Hsz.
  pose proof (readPacketHeader_keeps _ _ _ _ Hph) as (_ & Hmh & _).
  simpl in Hmh.
  rewrite (iteration_packet fuel d d2 r1 hdr He Hb Hph) in Hit.
  assert (Hto : toInt64 (packetSize hdr) = s).
  { apply toInt64_small. lia. }
  assert (Hbound : ∃ j, src' = drop j src ∧ Z.of_nat j ≤ s).
  { destruct (dispatch_advances _ _ _ _ Hit) as (j & _ & Hsrc & _ & Hj).
    cbn [LN LR] in Hsrc, Hj. exists j. split; [exact Hsrc|]. lia. }
  split; [exact Hbound|]. split.
  - intros Hcode. unfold dispatch in Hit. rewrite Hcode in Hit.
    change (bytesEqb indexStartCode mainStartCode) with false in Hit.
    change (bytesEqb indexStartCode streamStartCode) with false in Hit.
    change (bytesEqb indexStartCode infoStartCode) with false in Hit.
    change (bytesEqb indexStartCode syncpointStartCode) with false in Hit.
    change (bytesEqb indexStartCode indexStartCode) with true in Hit.
    cbv iota in Hit. unfold readIndex in Hit. injection Hit as <-. reflexivity.
  - intros Hcode Hs4096 Hlen.
    destruct (Z.eq_dec s 0) as [Hs0|Hs0].
    { destruct Hbound as (j & -> & Hj). f_equal. lia. }
    assert (Hs : 1 ≤ s ≤ 4096) by lia.
    assert (Hd2 : d_r d2 = NewReader src) by (subst src; destruct (d_r d2); reflexivity).
    unfold dispatch, newPacket in Hit. rewrite Hto, Hd2 in Hit.
    destruct Hcode as [[Hcode Hnone]|[Hcode|[Hcode|Hcode]]]; rewrite Hcode in Hit.
    + change (bytesEqb mainStartCode mainStartCode) with true in Hit. cbv iota in Hit.
      rewrite Hmh, Hnone in Hit.
      destruct (readMainHeader fuel _) as [[[h e] p1]| |] eqn:Hm; try discriminate.
      apply (readMainHeader_exhausts src s Hs Hlen) in Hm.
      injection Hit as <-. subst src'. simpl. rewrite Hm. reflexivity.
    + change (bytesEqb streamStartCode mainStartCode) with false in Hit.
      change (bytesEqb streamStartCode streamStartCode) with true in Hit.
      cbv iota in Hit.
      destruct (readStreamHeader _) as [[h e] p1] eqn:Hm.
      apply (readStreamHeader_exhausts src s Hs Hlen) in Hm.
      assert (Hgoal : unread (d_r (afterPacket d2 p1)) = drop (Z.to_nat s) src).
      { simpl. rewrite Hm. reflexivity. }
      destruct e as [err|]; [injection Hit as <-; exact Hgoal|].
      destruct h as [h|]; [|discriminate].
      destruct (streamClass h =? VideoClass); [injection Hit as <-; exact Hgoal|].
      destruct (streamClass h =? AudioClass); injection Hit as <-; exact Hgoal.
    + change (bytesEqb infoStartCode mainStartCode) with false in Hit.
      change (bytesEqb infoStartCode streamStartCode) with false in Hit.
      change (bytesEqb infoStartCode infoStartCode) with true in Hit.
      cbv iota in Hit.
      destruct (readInfoPacket _) as [[i e] p1] eqn:Hm.
      apply (readInfoPacket_exhausts src s Hs Hlen) in Hm.
      assert (Hgoal : unread (d_r (afterPacket d2 p1)) = drop (Z.to_nat s) src).
      { simpl. rewrite Hm. reflexivity. }
      destruct e as [err|]; injection Hit as <-; exact Hgoal.
    + change (bytesEqb syncpointStartCode mainStartCode) with false in Hit.
      change (bytesEqb syncpointStartCode streamStartCode) with false in Hit.
      change (bytesEqb syncpointStartCode infoStartCode) with false in Hit.
      change (bytesEqb syncpointStartCode syncpointStartCode) with true in Hit.
      cbv iota in Hit.
      destruct (readSyncPoint _) as [[i e] p1] eqn:Hm.
      apply (readSyncPoint_exhausts src s Hs Hlen) in Hm.
      assert (Hgoal : unread (d_r (afterPacket d2 p1)) = drop (Z.to_nat s) src).
      { simpl. rewrite Hm. reflexivity. }
      destruct e as [err|]; injection Hit as <-; exact Hgoal.
Qed.

(** The claim as it stands fails on an index packet: its payload byte is
    still in the source when the next unit begins. *)
Lemma index_payload_not_taken : ¬ takesWholePayload 0 indexPacketSession.
Proof.
  intros Hclaim.
  specialize (Hclaim (NewReader (tl indexStartCode ++ [x01; xaa; xbb]))
                     {| code := indexStartCode; packetSize := 1;
                        checksum := replicate 4 x00 |}
                     {| d_r := NewReader [xaa; xbb]; d_mainHeader := None;
                        d_err := None; readHeaderOnce := true |}
                     (Continue {| d_r := NewReader [xaa; xbb]; d_mainHeader := None;
                                  d_err := None; readHeaderOnce := true |})
                     eq_refl eq_refl eq_refl).
  simpl in Hclaim. specialize (Hclaim ltac:(lia) eq_refl). discriminate.
Qed.

(** ** The theorems at sample inputs *)

Lemma readVarint_bias_law_witness :
  readUvarint (NewReader [x81; x00; x02]) = (128, None, NewReader [x02])
  ∧ readVarint (NewReader [x81; x00; x02]) = (-64, None, NewReader [x02]).
Proof.
  split; [reflexivity|].
  exact (proj1 readVarint_bias_law bytesReader _
               (NewReader [x81; x00; x02]) (NewReader [x02]) 128 eq_refl).
Defined.

Lemma frame_table_construction_witness :
  (∃ i' tbl', fillLoop fillFuel (sampleRun 255) 0 0 (replicate 256 zeroFrameInfo)
              = Returns (i', tbl')
              ∧ Z.of_nat i' = 256)
  ∧ ∃ h e p', readMainHeader 2 (packetOver sampleMainPayload 15) = Returns (Some h, e, p')
              ∧ flags <$> Frames h !! 0x4E%nat = Some flagInvalid.
Proof.
  split.
  - destruct (proj1 frame_table_construction (sampleRun 255) 0%nat
                    (replicate 256 zeroFrameInfo))
      as (i' & tbl' & Hfill & Hi' & _).
    + reflexivity.
    + simpl. lia.
    + vm_compute. discriminate.
    + exists i', tbl'. split; [exact Hfill|]. rewrite Hi'. reflexivity.
  - destruct (readMainHeader 2 (packetOver sampleMainPayload 15))
      as [[[[h|] e] p']| |] eqn:Hm.
    + exists h, e, p'. split; [reflexivity|].
      exact (proj1 (proj2 (proj2 frame_table_construction bytesReader _ 2%nat _ _ _ _ Hm))).
    + exfalso. vm_compute in Hm. discriminate.
    + exfalso. vm_compute in Hm. discriminate.
    + exfalso. vm_compute in Hm. discriminate.
Defined.

Lemma frame_table_bound_unchecked_witness :
  fillLoop fillFuel (sampleRun (2 ^ 64 - 1)) 0 0 (replicate 256 zeroFrameInfo)
  = Panics (IndexOutOfRange 256)
  ∧ readMainHeader 1 (packetOver wrappingMainPayload 10) = Panics (IndexOutOfRange 256).
Proof.
  split.
  - apply (proj1 frame_table_bound_unchecked (sampleRun (2 ^ 64 - 1)) 0%nat
                 (replicate 256 zeroFrameInfo)).
    + reflexivity.
    + lia.
    + simpl. lia.
    + vm_compute. reflexivity.
  - apply (proj1 (proj2 (proj2 frame_table_bound_unchecked)) bytesReader _ 0%nat
                 (packetOver wrappingMainPayload 10)).
    + reflexivity.
    + vm_compute. reflexivity.
Defined.

Lemma error_stickiness_witness :
  let d1 := {| d_r := NewReader []; d_mainHeader := None;
               d_err := Some (ErrFileID EOF); readHeaderOnce := true |} in
  ReadEvent 1 (NewDemuxer (NewReader [])) = Returns (Failed (ErrFileID EOF), d1)
  ∧ nthCall 1 3 d1 = Returns (Failed (ErrFileID EOF), d1).
Proof.
  intros d1.
  assert (Hcall : ReadEvent 1 (NewDemuxer (NewReader []))
                  = Returns (Failed (ErrFileID EOF), d1)) by reflexivity.
  split; [exact Hcall|].
  destruct (error_stickiness bytesReader _ 1%nat (NewDemuxer (NewReader [])) d1
                             (Failed (ErrFileID EOF)) (ErrFileID EOF) Hcall)
    as [Hrec Hlater].
  exact (Hlater (Hrec eq_refl) 0%nat 3%nat).
Defined.

Lemma single_main_header_witness :
  let d := sessionOver (mainStartCode ++ [x00]) (Some sampleHeader) in
  let d' := {| d_r := NewReader []; d_mainHeader := Some sampleHeader;
               d_err := Some ErrSecondMainHeader; readHeaderOnce := true |} in
  ReadEvent 1 d = Returns (Failed ErrSecondMainHeader, d')
  ∧ d_mainHeader d' = Some sampleHeader.
Proof.
  intros d d'.
  pose (r1 := NewReader (tl mainStartCode ++ [x00])).
  pose (hdr := {| code := mainStartCode; packetSize := 0; checksum := replicate 4 x00 |}).
  assert (Hb : ReadFull 1 (d_r d) = ([x4e], None, r1)) by reflexivity.
  assert (Hph : readPacketHeader (set_r d r1)
                = (hdr, None, sessionOver [] (Some sampleHeader))) by reflexivity.
  destruct (single_main_header bytesReader _ 0%nat d _ r1 hdr eq_refl Hb Hph eq_refl)
    as (_ & Hsecond & _).
  destruct (Hsecond sampleHeader eq_refl eq_refl) as (Hcall & Hkept & _).
  split; [exact Hcall|exact Hkept].
Defined.

Lemma frame_without_main_header_witness :
  ReadEvent 1 (NewDemuxer (NewReader (fileID ++ [x07]))) = Panics NilDereference.
Proof.
  apply (frame_without_main_header bytesReader _ 0%nat
           (NewDemuxer (NewReader (fileID ++ [x07]))) x07 (NewReader [])).
  - reflexivity.
  - reflexivity.
  - reflexivity.
  - discriminate.
Defined.

Lemma side_data_variants_witness :
  let p2 := RawPacket (BufioReader (LimitReader (NewReader []) 0) [x05] None) None in
  let p3 := RawPacket (BufioReader (LimitReader (NewReader []) 0) [] None) None in
  p_readVarint p2 = (3, p3)
  ∧ readSideEntry (packetOver sampleSideEntry 4) = (sideRational [x61] 3 3, p3).
Proof.
  intros p2 p3.
  pose (p1 := RawPacket (BufioReader (LimitReader (NewReader []) 0) [x0e; x05] None)
                        (@None error)).
  assert (Hname : p_readVarBytes (packetOver sampleSideEntry 4) = ([x61], p1))
    by reflexivity.
  assert (Ht : p_readVarint p1 = (-7, p2)) by reflexivity.
  assert (Hnum : p_readVarint p2 = (3, p3)) by reflexivity.
  split; [exact Hnum|].
  destruct (side_data_variants bytesReader _ _ p1 p2 [x61] (-7) Hname Ht)
    as (_ & _ & _ & _ & Hrat & _).
  rewrite (Hrat ltac:(lia)), Hnum. reflexivity.
Defined.

Lemma frame_decoding_order_witness :
  let d := sessionOver [x20; x01; xaa; xbb; xcc; xdd] (Some sampleHeader) in
  frameSpec sampleMeta (unread (d_r d)) = Some (sampleFrame, [xdd])
  ∧ readFrame x00 (Some sampleHeader) d
    = Returns (inl sampleFrame, set_r d (NewReader [xdd])).
Proof.
  intros d.
  assert (Hspec : frameSpec sampleMeta (unread (d_r d)) = Some (sampleFrame, [xdd]))
    by reflexivity.
  split; [exact Hspec|].
  apply (proj1 (frame_decoding_order d x00 sampleHeader sampleMeta sampleFrame [xdd]
                                     eq_refl eq_refl)).
  exact Hspec.
Defined.

Lemma payload_view_bounded_witness :
  let d := sessionOver (syncpointStartCode ++ [x03; x01; x02; xff; xbb]) None in
  iteration 0 d = Returns (Continue (sessionOver [xbb] None))
  ∧ unread (d_r (sessionOver [xbb] None)) = drop 3 [x01; x02; xff; xbb].
Proof.
  intros d.
  pose (r1 := NewReader (tl syncpointStartCode ++ [x03; x01; x02; xff; xbb])).
  pose (hdr := {| code := syncpointStartCode; packetSize := 3;
                  checksum := replicate 4 x00 |}).
  assert (Hb : ReadFull 1 (d_r d) = ([x4e], None, r1)) by reflexivity.
  assert (Hph : readPacketHeader (set_r d r1)
                = (hdr, None, sessionOver [x01; x02; xff; xbb] None)) by reflexivity.
  assert (Hit : iteration 0 d = Returns (Continue (sessionOver [xbb] None)))
    by reflexivity.
  split; [exact Hit|].
  destruct (payload_view_bounded 0 d _ r1 hdr _ eq_refl Hb Hph Hit) as (_ & _ & Hexact).
  apply Hexact.
  - right. right. right. reflexivity.
  - simpl. lia.
  - simpl. lia.
Defined.

(** * Further properties of the code *)

(** ** The unsigned varint reader on an in-memory source *)

Lemma lor_groups x b :
  0 ≤ x → Z.lor (Z.shiftl x 7) (Z.land (byteZ b) 0x7f) = x * 128 + byteZ b mod 128.
Proof.
  intros Hx. change 0x7f with (Z.ones 7). rewrite Z.land_ones by lia.
  change (2 ^ 7) with 128. rewrite Z.shiftl_mul_pow2 by lia. change (2 ^ 7) with 128.
  rewrite <- Z.lxor_lor, <- Z.add_nocarry_lxor; try reflexivity.
  all: apply Z.bits_inj'; intros n Hn; rewrite Z.land_spec, Z.bits_0;
    destruct (Z.lt_ge_cases n 7) as [Hlt|Hge].
  all: try (change 128 with (2 ^ 7); rewrite Z.mul_pow2_bits_low by lia; reflexivity).
  all: change 128 with (2 ^ 7) at 2; rewrite Z.mod_pow2_bits_high by lia;
    apply andb_false_r.
Qed.

Lemma ReadFull_one b s : ReadFull 1 (NewReader (b :: s)) = ([b], None, NewReader s).
Proof. rewrite ReadFull_bytes. reflexivity. Qed.

Lemma ReadFull_one_empty : ReadFull 1 (NewReader []) = ([], Some EOF, NewReader []).
Proof. reflexivity. Qed.

(** The loop over continuation bytes, however it ends. *)
Lemma uvarintLoop_continues pre : ∀ i k x tail_,
  Forall continues pre → (Z.of_nat i + k = 9) → 0 ≤ k → 0 ≤ x < 2 ^ (7 * k) →
  (length pre ≤ i)%nat →
  uvarintLoop i x (NewReader (pre ++ tail_))
  = uvarintLoop (i - length pre) (base128 x pre) (NewReader tail_)
  ∧ 0 ≤ base128 x pre < 2 ^ (7 * (k + Z.of_nat (length pre))).
Proof.
  induction pre as [|b pre IH]; intros i k x tail_ Hall Hik Hk Hx Hlen.
  - simpl. rewrite Nat.sub_0_r, Z.add_0_r. auto.
  - inversion Hall as [|? ? Hb Hpre]; subst. cbn [length] in Hlen.
    destruct i as [|i]; [lia|].
    pose proof (uvarint_acc_bound x b k Hk Hx) as Hacc.
    rewrite (lor_groups x b (proj1 Hx)) in Hacc.
    assert (Hle : 2 ^ (7 * (k + 1)) ≤ 2 ^ 63) by (apply Z.pow_le_mono_r; lia).
    rewrite <- app_comm_cons, uvarintLoop_S, ReadFull_one. cbv zeta. cbn [hd].
    rewrite (lor_groups x b (proj1 Hx)), wrap64_small by lia.
    unfold continues in Hb. destruct (Z.ltb_spec (byteZ b) 0x80); [lia|].
    destruct (IH i (k + 1) (x * 128 + byteZ b mod 128) tail_ Hpre) as [Heq Hbd];
      [lia|lia|exact Hacc|lia|].
    cbn [base128 length]. rewrite Heq. split; [reflexivity|].
    replace (k + Z.of_nat (S (length pre))) with (k + 1 + Z.of_nat (length pre)) by lia.
    exact Hbd.
Qed.

Lemma base128_app x pre t : base128 x (pre ++ [t]) = base128 x pre * 128 + byteZ t mod 128.
Proof.
  revert x. induction pre as [|b pre IH]; intros x; simpl; [reflexivity|apply IH].
Qed.

Lemma readUvarint_decodes_aux pre t rest :
  Forall continues pre → (length pre < 9)%nat → byteZ t < 0x80 →
  readUvarint (NewReader (pre ++ t :: rest))
  = (base128 0 (pre ++ [t]), None, NewReader rest).
Proof.
  intros Hall Hlen Ht. unfold readUvarint.
  destruct (uvarintLoop_continues pre 9 0 0 (t :: rest) Hall) as [Heq Hbd];
    [reflexivity|lia|simpl; lia|lia|].
  rewrite Heq. destruct (9 - length pre)%nat as [|j] eqn:Hj; [lia|].
  rewrite uvarintLoop_S, ReadFull_one. cbv zeta. cbn [hd].
  destruct (Z.ltb_spec (byteZ t) 0x80); [|lia].
  assert (Hk : 0 ≤ Z.of_nat (length pre)) by lia.
  pose proof (uvarint_acc_bound (base128 0 pre) t (Z.of_nat (length pre)) Hk Hbd) as Hacc.
  assert (Hle : 2 ^ (7 * (Z.of_nat (length pre) + 1)) ≤ 2 ^ 63)
    by (apply Z.pow_le_mono_r; lia).
  rewrite wrap64_small by lia.
  rewrite (lor_groups _ t (proj1 Hbd)), base128_app. reflexivity.
Qed.

(** X1. On an in-memory source, a terminated varint of at most nine bytes
    decodes to the number its seven-bit groups spell, most significant group
    first, and the reader is left just behind the terminating byte. *)
Theorem readUvarint_decodes pre t rest :
  Forall continues pre → (length pre < 9)%nat → byteZ t < 0x80 →
  readUvarint (NewReader (pre ++ t :: rest))
  = (base128 0 (pre ++ [t]), None, NewReader rest).
Proof. apply readUvarint_decodes_aux. Qed.

(** X2. Nine bytes that all carry the continuation bit make the reader
    fail with the overflow error after exactly those nine bytes; the value
    returned beside the error is what the nine groups spell. *)
Theorem readUvarint_overflows pre rest :
  Forall continues pre → length pre = 9%nat →
  readUvarint (NewReader (pre ++ rest))
  = (base128 0 pre, Some ErrVarintOverflow, NewReader rest).
Proof.
  intros Hall Hlen. unfold readUvarint.
  destruct (uvarintLoop_continues pre 9 0 0 rest Hall) as [Heq _];
    [reflexivity|lia|simpl; lia|lia|].
  rewrite Heq, Hlen. reflexivity.
Qed.

(** X3. A source that ends within a varint (fewer than nine bytes, all with
    the continuation bit, the empty source included) makes the reader fail
    with EOF, never with ErrUnexpectedEOF; the groups read so far are
    returned beside the error. *)
Theorem readUvarint_truncated pre :
  Forall continues pre → (length pre < 9)%nat →
  readUvarint (NewReader pre) = (base128 0 pre, Some EOF, NewReader []).
Proof.
  intros Hall Hlen. unfold readUvarint.
  destruct (uvarintLoop_continues pre 9 0 0 [] Hall) as [Heq _];
    [reflexivity|lia|simpl; lia|lia|].
  rewrite app_nil_r in Heq. rewrite Heq.
  destruct (9 - length pre)%nat as [|j] eqn:Hj; [lia|].
  rewrite uvarintLoop_S, ReadFull_one_empty. reflexivity.
Qed.

(** X4. Whatever the reader and however the read ends, the value that
    [readUvarint] returns has at most 63 bits: nine groups of seven bits
    never reach the top bit of a uint64. *)
Theorem readUvarint_63_bits (R : Type) (RR : Reader R) (r r' : R) v e :
  readUvarint r = (v, e, r') → 0 ≤ v < 2 ^ 63.
Proof. apply readUvarint_bound. Qed.

(** X5. Whatever the reader, the value that [readVarint] returns lies
    between [-2^62] and [2^62], so its conversions to int64 never wrap; on a
    failed read it is 0. *)
Theorem readVarint_range (R : Type) (RR : Reader R) (r r' : R) v e :
  readVarint r = (v, e, r') →
  - 2 ^ 62 ≤ v ≤ 2 ^ 62 ∧ (e ≠ None → v = 0).
Proof.
  intros Hv. split; [exact (readVarint_bound _ _ _ _ Hv)|].
  unfold readVarint in Hv. destruct (readUvarint r) as [[u e1] r1].
  destruct e1 as [err|]; [injection Hv as <- _ _; reflexivity|].
  destruct (negb _); injection Hv as _ <- _; congruence.
Qed.

(** ** The session on an in-memory source *)

(** X6. A source shorter than the 25-byte file identifier makes the first
    call fail with the file-id error, wrapping EOF for an empty source and
    ErrUnexpectedEOF otherwise; the source is used up and the error is
    recorded. *)
Theorem short_file_header src fuel :
  (length src < length fileID)%nat →
  ReadEvent (S fuel) (NewDemuxer (NewReader src))
  = let e := ErrFileID (match src with [] => EOF | _ => ErrUnexpectedEOF end) in
    Returns (Failed e,
             {| d_r := NewReader []; d_mainHeader := None; d_err := Some e;
                readHeaderOnce := true |}).
Proof.
  intros Hlen. unfold ReadEvent, readHeaderOnceDo, readFileHeader.
  cbn [readHeaderOnce NewDemuxer d_r]. rewrite ReadFull_bytes.
  destruct (Nat.leb_spec (length fileID) (length src)); [lia|].
  reflexivity.
Qed.

(** X7. The file identifier is read, not compared: whatever its 25 bytes
    are, the first call goes on as a session that starts behind them. *)
Theorem file_header_unchecked id rest fuel :
  length id = length fileID →
  ReadEvent fuel (NewDemuxer (NewReader (id ++ rest)))
  = ReadEvent fuel (sessionOver rest None).
Proof.
  intros Hlen. unfold ReadEvent, readHeaderOnceDo, readFileHeader.
  cbn [readHeaderOnce NewDemuxer d_r sessionOver]. rewrite ReadFull_bytes.
  rewrite length_app, <- Hlen.
  destruct (Nat.leb_spec (length id) (length id + length rest)); [|lia].
  rewrite drop_app_length. reflexivity.
Qed.

(** X8. At the end of the source, between two units, a call returns EOF
    and records it. *)
Theorem end_of_stream (d : Demuxer bytesReader) fuel :
  readHeaderOnce d = true → d_err d = None → d_r d = NewReader [] →
  ReadEvent (S fuel) d = Returns (Failed EOF, set_err d (Some EOF)).
Proof.
  intros Ho He Hr. unfold ReadEvent, readHeaderOnceDo. rewrite Ho.
  cbn [eventLoop]. unfold iteration. rewrite He, Hr, ReadFull_one_empty.
  unfold fail, set_err, set_r. cbn. rewrite <- Hr. destruct d; reflexivity.
Qed.

Lemma bytesEqb_eq a : ∀ b, bytesEqb a b = true → a = b.
Proof.
  induction a as [|x a IH]; intros [|y b]; simpl; try discriminate; [reflexivity|].
  intros Hab. apply andb_prop in Hab as [Hxy Hab].
  apply Byte.byte_dec_bl in Hxy. apply IH in Hab. congruence.
Qed.

Lemma bytesEqb_neq a b : a ≠ b → bytesEqb a b = false.
Proof.
  intros Hne. destruct (bytesEqb a b) eqn:Hab; [|reflexivity].
  apply bytesEqb_eq in Hab. contradiction.
Qed.

(** X9. A start code that is none of the five known ones makes the call
    fail with the unknown-start-code error, which carries the eight bytes;
    nothing of the payload is read. *)
Theorem unknown_start_code (R : Type) (RR : Reader R) fuel (d d2 : Demuxer R) r1 hdr :
  d_err d = None →
  ReadFull 1 (d_r d) = ([x4e], None, r1) →
  readPacketHeader (set_r d r1) = (hdr, None, d2) →
  code hdr ≠ mainStartCode → code hdr ≠ streamStartCode →
  code hdr ≠ infoStartCode → code hdr ≠ syncpointStartCode →
  code hdr ≠ indexStartCode →
  iteration fuel d
  = Returns (Return (Failed (ErrUnknownStartCode (code hdr)))
                    (set_err d2 (Some (ErrUnknownStartCode (code hdr))))).
Proof.
  intros He Hb Hph H1 H2 H3 H4 H5.
  rewrite (iteration_packet fuel d d2 r1 hdr He Hb Hph). unfold dispatch.
  rewrite !bytesEqb_neq by assumption. reflexivity.
Qed.

(** ** Stream headers and their events *)

Section stream_header_facts.
Context {R : Type} `{Reader R}.

Local Ltac next_read :=
  unfold sret; cbv beta iota zeta;
  match goal with
  | |- context [p_readUvarint ?q] => destruct (p_readUvarint q) as [? ?]
  | |- context [p_readVarBytes ?q] => destruct (p_readVarBytes q) as [? ?]
  end.

Lemma readStreamHeader_class (p p' : rawPacket R) h e :
  readStreamHeader p = (Some h, e, p') →
  0 ≤ streamClass h < 256
  ∧ (if streamClass h =? VideoClass then is_Some (sh_video h) else sh_video h = None)
  ∧ (if streamClass h =? AudioClass then is_Some (sh_audio h) else sh_audio h = None).
Proof.
  unfold readStreamHeader. destruct (p_err p); [discriminate|].
  unfold sbind.
  do 9 next_read. cbv beta zeta.
  match goal with
  | |- context [?c mod 256 =? VideoClass] =>
    assert (Hcls : 0 ≤ c mod 256 < 256) by (apply Z.mod_pos_bound; lia);
      destruct (c mod 256 =? VideoClass) eqn:Hv;
      destruct (c mod 256 =? AudioClass) eqn:Ha
  end;
    try (exfalso; apply Z.eqb_eq in Hv; apply Z.eqb_eq in Ha;
         unfold VideoClass, AudioClass in *; lia);
    repeat next_read; unfold sret; cbv beta iota zeta;
    intros Heq; simplify_eq; cbn [streamClass sh_video sh_audio];
    rewrite ?Hv, ?Ha; repeat split; eauto; lia.
Qed.
End stream_header_facts.

(** X10. Of the start-code packets only a stream packet makes a call return
    an event, and that event is sound: a video event has class 0 and a video
    sub-header, an audio event class 1 and an audio sub-header, any other
    event neither sub-header, so the accessors of the event find what they
    dereference. *)
Theorem packet_events_sound (R : Type) (RR : Reader R) fuel (d d' : Demuxer R) hdr ev :
  dispatch fuel d hdr = Returns (Return (GotEvent ev) d') →
  code hdr = streamStartCode ∧ streamEventSound ev.
Proof.
  unfold dispatch.
  destruct (bytesEqb (code hdr) mainStartCode).
  { destruct (d_mainHeader d); [discriminate|].
    destruct (readMainHeader fuel _) as [[[h e] p1]| |]; discriminate. }
  destruct (bytesEqb (code hdr) streamStartCode) eqn:Hcode.
  - apply bytesEqb_eq in Hcode.
    destruct (readStreamHeader _) as [[h e] p1] eqn:Hsh.
    destruct e as [err|]; [discriminate|].
    destruct h as [h|]; [|discriminate].
    apply readStreamHeader_class in Hsh as (_ & Hv & Ha).
    destruct (Z.eqb_spec (streamClass h) VideoClass) as [Hv'|Hv'].
    { intros [= <- _]. simpl. auto. }
    destruct (Z.eqb_spec (streamClass h) AudioClass) as [Ha'|Ha'].
    { intros [= <- _]. simpl. auto. }
    intros [= <- _]. simpl. auto.
  - destruct (bytesEqb (code hdr) infoStartCode).
    { destruct (readInfoPacket _) as [[i e] p1]. destruct e; discriminate. }
    destruct (bytesEqb (code hdr) syncpointStartCode).
    { destruct (readSyncPoint _) as [[i e] p1]. destruct e; discriminate. }
    destruct (bytesEqb (code hdr) indexStartCode); discriminate.
Qed.

(** ** Frames *)

Section frame_facts.
Context {R : Type} `{Reader R}.

Lemma readFrameFields_fresh meta (d d' : Demuxer R) fl size f :
  readFrameFields meta d = (fl, size, f, d') → dataAccessed f = false ∧ data f = [].
Proof.
  unfold readFrameFields, sbind.
  repeat match goal with
         | |- context [let '(_, _) := ?m in _] => destruct m as [? ?]
         end.
  unfold sret. intros Heq. simplify_eq. auto.
Qed.

Lemma readFrame_fresh code h (d d' : Demuxer R) f :
  readFrame code h d = Returns (inl f, d') → dataAccessed f = false.
Proof.
  unfold readFrame. destruct (d_err d); [discriminate|].
  destruct h as [h|]; [|discriminate].
  destruct (Frames h !! Z.to_nat (byteZ code)) as [meta|]; [|discriminate].
  destruct (readFrameFields meta d) as [[[fl size] f0] d1] eqn:Hf.
  apply readFrameFields_fresh in Hf as [Hacc _].
  destruct (hasFlag fl flagChecksum).
  - destruct (ReadFull 4 (d_r d1)) as [[cs e] r1]. destruct e; [discriminate|].
    destruct (ReadFull _ _) as [[bs e] r2]. destruct e; [discriminate|].
    intros [= <- _]. exact Hacc.
  - destruct (ReadFull _ _) as [[bs e] r2]. destruct e; [discriminate|].
    intros [= <- _]. exact Hacc.
Qed.
End frame_facts.

(** X11. The payload of a frame is handed out once: the first [Data] call
    on a frame that the frame decoder returned gives a reader over the
    payload, and every later call gives nil. *)
Theorem frame_data_single_use (R : Type) (RR : Reader R) code h (d d' : Demuxer R) f :
  readFrame code h d = Returns (inl f, d') →
  fst (Data f) = Some (NewReader (data f))
  ∧ Data (snd (Data f)) = (None, snd (Data f))
  ∧ data (snd (Data f)) = data f.
Proof.
  intros Hf. apply readFrame_fresh in Hf. unfold Data. rewrite Hf. simpl. auto.
Qed.

(** ** The frame table once the packet has failed *)

Section failed_packet.
Context {R : Type} `{Reader R}.

Lemma p_readUvarint_failed (p : rawPacket R) : p_err p ≠ None → p_readUvarint p = (0, p).
Proof. unfold p_readUvarint. destruct (p_err p); [reflexivity|congruence]. Qed.

Lemma p_readVarint_failed (p : rawPacket R) : p_err p ≠ None → p_readVarint p = (0, p).
Proof. unfold p_readVarint. destruct (p_err p); [reflexivity|congruence]. Qed.

(** After a failure a record of the table reads nothing: no flags, zero
    fields, hence the carried variables and the default run length. *)
Lemma readTableRun_failed v (p : rawPacket R) :
  p_err p ≠ None → readTableRun v p = (failedRun v, p).
Proof.
  intros He. unfold readTableRun, sbind.
  rewrite !(p_readUvarint_failed p He). unfold failedRun.
  destruct v. cbn -[wrap64]. reflexivity.
Qed.
End failed_packet.

Lemma fillLoop_done fuel run j i tbl :
  (j <? run_count run) = false → fillLoop fuel run j i tbl = Returns (i, tbl).
Proof. intros Hj. destruct fuel; simpl; rewrite Hj; reflexivity. Qed.

(** X12. Once the packet has failed, a record of the frame table reads
    nothing and declares a run of [mul] default entries; with a carried
    multiplier of 0 the run is empty, the table index never moves, and the
    table loop does not end: it is still running after any number of
    rounds. *)
Theorem failed_table_never_ends (R : Type) (RR : Reader R) (p : rawPacket R) v i tbl :
  p_err p ≠ None → v_mul v = 0 → (i < 256)%nat →
  readTableRun v p = (failedRun v, p)
  ∧ ∀ fuel, frameTableLoop fuel i v tbl p = OutOfFuel.
Proof.
  intros He Hmul Hi. split; [apply readTableRun_failed, He|].
  intros fuel. induction fuel as [|fuel IH].
  - rewrite frameTableLoop_O. destruct (Nat.ltb_spec i 256); [reflexivity|lia].
  - rewrite frameTableLoop_S. destruct (Nat.ltb_spec i 256); [|lia].
    rewrite (readTableRun_failed v p He).
    rewrite fillLoop_done by (unfold failedRun; simpl; rewrite Hmul; reflexivity).
    exact IH.
Qed.

(** ** The packet header on the wire *)

Lemma ReadFull_app n a b :
  length a = n → ReadFull n (NewReader (a ++ b)) = (a, None, NewReader b).
Proof.
  intros <-. rewrite ReadFull_bytes, length_app.
  destruct (Nat.leb_spec (length a) (length a + length b)); [|lia].
  rewrite take_app_length, drop_app_length. reflexivity.
Qed.

(** X13. Behind the marker byte a packet header is seven more bytes of
    start code and the size as a varint; four checksum bytes follow exactly
    when the size exceeds 4096, and they are stored, not checked.  The
    reader is left at the first payload byte. *)
Theorem packet_header_layout c7 pre t rest h :
  length c7 = 7%nat → Forall continues pre → (length pre < 9)%nat → byteZ t < 0x80 →
  let size := base128 0 (pre ++ [t]) in
  (size ≤ 4096 →
   readPacketHeader (sessionOver (c7 ++ pre ++ t :: rest) h)
   = ({| code := x4e :: c7; packetSize := size; checksum := replicate 4 x00 |},
      None, sessionOver rest h))
  ∧ (4096 < size →
     ∀ sum rest', rest = sum ++ rest' → length sum = 4%nat →
       readPacketHeader (sessionOver (c7 ++ pre ++ t :: rest) h)
       = ({| code := x4e :: c7; packetSize := size; checksum := sum |},
          None, sessionOver rest' h)).
Proof.
  intros Hc7 Hall Hlen Ht size.
  split.
  - intros Hsz. unfold readPacketHeader. cbn [d_r sessionOver].
    rewrite (ReadFull_app 7 c7 _ Hc7). cbn [d_r set_r].
    rewrite (readUvarint_decodes_aux pre t rest Hall Hlen Ht). fold size.
    destruct (Z.ltb_spec 4096 size); [lia|].
    rewrite Hc7. cbn [Nat.sub replicate]. rewrite app_nil_r. reflexivity.
  - intros Hsz sum rest' -> Hsum. unfold readPacketHeader. cbn [d_r sessionOver].
    rewrite (ReadFull_app 7 c7 _ Hc7). cbn [d_r set_r].
    rewrite (readUvarint_decodes_aux pre t _ Hall Hlen Ht). fold size.
    destruct (Z.ltb_spec 4096 size); [|lia].
    cbn [d_r set_r]. rewrite (ReadFull_app 4 sum rest' Hsum).
    rewrite Hc7, Hsum. cbn [Nat.sub replicate]. rewrite !app_nil_r. reflexivity.
Qed.

(** ** Side data *)

Lemma scollect_length {S A} n (m : stateM S A) : ∀ s l s',
  scollect n m s = (l, s') → length l = n.
Proof.
  induction n as [|n IH]; intros s l s'; simpl.
  - intros [= <- _]. reflexivity.
  - unfold sbind. destruct (m s) as [a s1].
    destruct (scollect n m s1) as [l1 s2] eqn:Hl. apply IH in Hl.
    unfold sret. intros [= <- _]. simpl. congruence.
Qed.

(** X14. [readSideData] returns as many entries as the count it read
    declares, also when the packet ends early: once the packet has failed an
    entry reads nothing and is the placeholder with an empty name, and a
    call on a failed packet returns no entry at all. *)
Theorem side_data_count (R : Type) (RR : Reader R) (p p' : rawPacket R) l :
  readSideData p = (l, p') →
  (p_err p = None → length l = Z.to_nat (fst (p_readUvarint p)))
  ∧ (p_err p ≠ None → l = [] ∧ p' = p ∧ readSideEntry p = (sideUint64 [] 0, p)).
Proof.
  unfold readSideData. intros Hrun. split.
  - intros He. rewrite He in Hrun. unfold sbind in Hrun.
    destruct (p_readUvarint p) as [count p1]. simpl.
    apply scollect_length in Hrun. exact Hrun.
  - intros He. destruct (p_err p) eqn:Hp; [|congruence].
    injection Hrun as <- <-. split; [reflexivity|]. split; [reflexivity|].
    unfold readSideEntry, sbind, p_readVarBytes, p_readVarint. rewrite Hp.
    cbv beta iota. rewrite Hp. reflexivity.
Qed.

(** ** A frame through the public call *)

(** X15. With a main header stored and no error recorded, a call that finds
    a byte other than the marker takes it as frame code: when the bytes
    behind it decode under the table entry of that code, the call returns
    that frame as its event and leaves the source behind the payload. *)
Theorem ReadEvent_frame fuel (d : Demuxer bytesReader) h c bytes meta f rest :
  readHeaderOnce d = true → d_err d = None → d_mainHeader d = Some h →
  d_r d = NewReader (c :: bytes) → c ≠ x4e →
  Frames h !! Z.to_nat (byteZ c) = Some meta →
  frameSpec meta bytes = Some (f, rest) →
  ReadEvent (S fuel) d = Returns (GotEvent (FrameEvent f), set_r d (NewReader rest)).
Proof.
  intros Ho He Hh Hr Hc Hmeta Hspec.
  destruct d as [r mh e o]. cbn in Ho, He, Hh, Hr. subst r mh e o.
  pose proof (proj1 (frame_decoding_order_aux
                       {| d_r := NewReader bytes; d_mainHeader := Some h;
                          d_err := None; readHeaderOnce := true |}
                       c h meta f rest eq_refl Hmeta) Hspec) as Hframe.
  unfold ReadEvent, readHeaderOnceDo. cbn [readHeaderOnce eventLoop].
  unfold iteration. cbn [d_err d_r]. rewrite ReadFull_one. cbn [hd].
  destruct (Byte.eqb c x4e) eqn:Heq.
  { apply Byte.byte_dec_bl in Heq. contradiction. }
  unfold set_r in *. cbn [d_r d_mainHeader d_err readHeaderOnce] in *.
  rewrite Hframe. reflexivity.
Qed.

(** ** The error of the main-header decoder *)

(** X16. The error that the main-header decoder returns is not looked at
    by [ReadEvent]: the round that processed the packet stores the header,
    records no error and goes round again. *)
Theorem main_header_error_not_recorded (R : Type) (RR : Reader R) fuel
    (d d2 : Demuxer R) r1 hdr h e p1 :
  d_err d = None → d_mainHeader d = None →
  ReadFull 1 (d_r d) = ([x4e], None, r1) →
  readPacketHeader (set_r d r1) = (hdr, None, d2) →
  code hdr = mainStartCode →
  readMainHeader fuel (newPacket d2 hdr) = Returns (h, Some e, p1) →
  ∃ d', iteration fuel d = Returns (Continue d')
        ∧ d_err d' = None ∧ d_mainHeader d' = h.
Proof. apply iteration_main_error_dropped. Qed.

(** ** The further properties at sample inputs *)

Lemma continues_x81 : Forall continues [x81].
Proof. repeat constructor. unfold continues. vm_compute. discriminate. Defined.

Lemma continues_nine : Forall continues (replicate 9 xff).
Proof. repeat constructor; unfold continues; vm_compute; discriminate. Defined.

Lemma readUvarint_decodes_witness :
  readUvarint (NewReader [x81; x02; x02]) = (130, None, NewReader [x02]).
Proof.
  apply (readUvarint_decodes [x81] x02 [x02] continues_x81).
  - simpl. lia.
  - vm_compute. reflexivity.
Defined.

Lemma readUvarint_overflows_witness :
  readUvarint (NewReader (replicate 9 xff ++ [xff]))
  = (2 ^ 63 - 1, Some ErrVarintOverflow, NewReader [xff]).
Proof.
  apply (readUvarint_overflows (replicate 9 xff) [xff] continues_nine). reflexivity.
Defined.

Lemma readUvarint_truncated_witness :
  readUvarint (NewReader [x81]) = (1, Some EOF, NewReader []).
Proof.
  apply (readUvarint_truncated [x81] continues_x81). simpl. lia.
Defined.

Lemma readUvarint_63_bits_witness : 0 ≤ 128 < 2 ^ 63.
Proof.
  assert (Hread : readUvarint (NewReader [x81; x00]) = (128, None, NewReader []))
    by reflexivity.
  exact (readUvarint_63_bits bytesReader _ _ _ _ _ Hread).
Defined.

Lemma readVarint_range_witness : - 2 ^ 62 ≤ -64 ≤ 2 ^ 62.
Proof.
  assert (Hread : readVarint (NewReader [x81; x00]) = (-64, None, NewReader []))
    by reflexivity.
  exact (proj1 (readVarint_range bytesReader _ _ _ _ _ Hread)).
Defined.

Lemma short_file_header_witness :
  ReadEvent 1 (NewDemuxer (NewReader [x6e; x75; x74]))
  = Returns (Failed (ErrFileID ErrUnexpectedEOF),
             {| d_r := NewReader []; d_mainHeader := None;
                d_err := Some (ErrFileID ErrUnexpectedEOF); readHeaderOnce := true |}).
Proof.
  apply (short_file_header [x6e; x75; x74] 0%nat). vm_compute. lia.
Defined.

Lemma file_header_unchecked_witness :
  ReadEvent 1 (NewDemuxer (NewReader (replicate 25 x00 ++ [])))
  = ReadEvent 1 (sessionOver [] None).
Proof.
  apply (file_header_unchecked (replicate 25 x00) [] 1%nat). reflexivity.
Defined.

Lemma end_of_stream_witness :
  ReadEvent 1 (sessionOver [] None)
  = Returns (Failed EOF, set_err (sessionOver [] None) (Some EOF)).
Proof.
  apply (end_of_stream (sessionOver [] None) 0%nat); reflexivity.
Defined.

Lemma unknown_start_code_witness :
  let d := sessionOver (x4e :: replicate 7 x00 ++ [x00]) None in
  iteration 0 d
  = Returns (Return (Failed (ErrUnknownStartCode (x4e :: replicate 7 x00)))
                    (set_err (sessionOver [] None)
                             (Some (ErrUnknownStartCode (x4e :: replicate 7 x00))))).
Proof.
  intros d.
  pose (r1 := NewReader (replicate 7 x00 ++ [x00])).
  pose (hdr := {| code := x4e :: replicate 7 x00; packetSize := 0;
                  checksum := replicate 4 x00 |}).
  assert (Hb : ReadFull 1 (d_r d) = ([x4e], None, r1)) by reflexivity.
  assert (Hph : readPacketHeader (set_r d r1) = (hdr, None, sessionOver [] None))
    by reflexivity.
  apply (unknown_start_code bytesReader _ 0%nat d _ r1 hdr eq_refl Hb Hph);
    discriminate.
Defined.

Lemma packet_events_sound_witness :
  ∃ h d', dispatch 0 (sessionOver sampleStreamPayload None) sampleStreamPacketHeader
          = Returns (Return (GotEvent (VideoStreamEvent h)) d')
          ∧ streamEventSound (VideoStreamEvent h).
Proof.
  destruct (dispatch 0 (sessionOver sampleStreamPayload None) sampleStreamPacketHeader)
    as [[d1|[[h|h|h|f]|e] d1]| |] eqn:Hd;
    try (exfalso; vm_compute in Hd; discriminate).
  exists h, d1. split; [reflexivity|].
  exact (proj2 (packet_events_sound bytesReader _ 0%nat _ _ _ _ Hd)).
Defined.

Lemma frame_data_single_use_witness :
  fst (Data sampleFrame) = Some (NewReader [xaa; xbb; xcc])
  ∧ Data (snd (Data sampleFrame)) = (None, snd (Data sampleFrame)).
Proof.
  pose (d := sessionOver [x20; x01; xaa; xbb; xcc; xdd] (Some sampleHeader)).
  assert (Hf : readFrame x00 (Some sampleHeader) d
               = Returns (inl sampleFrame, set_r d (NewReader [xdd]))) by reflexivity.
  destruct (frame_data_single_use bytesReader _ _ _ _ _ _ Hf) as (H1 & H2 & _).
  split; [exact H1|exact H2].
Defined.

Lemma failed_table_never_ends_witness :
  frameTableLoop 5 0 zeroMulVars (replicate 256 zeroFrameInfo) failedPacket = OutOfFuel.
Proof.
  apply (failed_table_never_ends bytesReader _ failedPacket zeroMulVars 0%nat
                                 (replicate 256 zeroFrameInfo)).
  - discriminate.
  - reflexivity.
  - lia.
Defined.

Lemma packet_header_layout_witness :
  readPacketHeader (sessionOver (tl syncpointStartCode ++ [] ++ x03 :: [x01; x02]) None)
  = ({| code := syncpointStartCode; packetSize := 3; checksum := replicate 4 x00 |},
     None, sessionOver [x01; x02] None).
Proof.
  assert (Ht : byteZ x03 < 0x80) by (vm_compute; reflexivity).
  assert (Hlen : (length (@nil byte) < 9)%nat) by (simpl; lia).
  destruct (packet_header_layout (tl syncpointStartCode) [] x03 [x01; x02] None
                                 eq_refl (List.Forall_nil continues) Hlen Ht) as [Hsmall _].
  apply Hsmall. vm_compute. intros Hgt. discriminate Hgt.
Defined.

Lemma side_data_count_witness :
  ∃ l p', readSideData (packetOver (x01 :: sampleSideEntry) 5) = (l, p')
          ∧ length l = 1%nat.
Proof.
  destruct (readSideData (packetOver (x01 :: sampleSideEntry) 5)) as [l p'] eqn:Hrun.
  exists l, p'. split; [reflexivity|].
  exact (proj1 (side_data_count bytesReader _ _ _ _ Hrun) eq_refl).
Defined.

Lemma ReadEvent_frame_witness :
  let d := sessionOver (x00 :: [x20; x01; xaa; xbb; xcc; xdd]) (Some sampleHeader) in
  ReadEvent 1 d = Returns (GotEvent (FrameEvent sampleFrame), set_r d (NewReader [xdd])).
Proof.
  intros d.
  apply (ReadEvent_frame 0%nat d sampleHeader x00 [x20; x01; xaa; xbb; xcc; xdd]
                         sampleMeta sampleFrame [xdd]); try reflexivity.
  discriminate.
Defined.

Lemma main_header_error_not_recorded_witness :
  let d := sessionOver (mainStartCode ++ [x02] ++ truncatedMainPayload ++ [x00; x00]) None in
  ∃ d', iteration 300 d = Returns (Continue d') ∧ d_err d' = None.
Proof.
  intros d.
  pose (r1 := NewReader (tl mainStartCode ++ [x02] ++ truncatedMainPayload ++ [x00; x00])).
  pose (hdr := {| code := mainStartCode; packetSize := 2; checksum := replicate 4 x00 |}).
  pose (d2 := sessionOver (truncatedMainPayload ++ [x00; x00]) None).
  assert (Hb : ReadFull 1 (d_r d) = ([x4e], None, r1)) by reflexivity.
  assert (Hph : readPacketHeader (set_r d r1) = (hdr, None, d2)) by reflexivity.
  destruct (readMainHeader 300 (newPacket d2 hdr)) as [[[h e] p1]| |] eqn:Hm;
    [|exfalso; vm_compute in Hm; discriminate..].
  assert (He : e = Some EOF).
  { apply (f_equal (λ o, match o with Returns (_, e, _) => e | _ => None end)) in Hm.
    vm_compute in Hm. congruence. }
  subst e.
  destruct (main_header_error_not_recorded bytesReader _ 300%nat d d2 r1 hdr h EOF p1
              eq_refl eq_refl Hb Hph eq_refl Hm) as (d' & Hit & Herr & _).
  exists d'. split; [exact Hit|exact Herr].
Defined.
